(** * Marabu protocol core: message parsing, validation and the read loop

    A shallow embedding of [problem_set1/solution1/message.ts],
    [utility.ts] and the connection server, together with the parts of the
    JavaScript runtime these files call into ([TextDecoder], [TextEncoder],
    [JSON.parse], [JSON.stringify], property lookup on object literals). *)

From Stdlib Require Import List NArith ZArith Bool Ascii String Lia.
From Stdlib Require Import Strings.Byte.
Import ListNotations.

Local Open Scope N_scope.
Local Open Scope list_scope.

(** ** JavaScript strings

    A JavaScript string is a sequence of UTF-16 code units. *)

Definition jsstring := list N.

(** An ASCII literal as a JavaScript string. *)
Fixpoint str (s : string) : jsstring :=
  match s with
  | EmptyString => []
  | String c s' => N_of_ascii c :: str s'
  end.

Fixpoint jsstring_eqb (a b : jsstring) : bool :=
  match a, b with
  | [], [] => true
  | x :: a', y :: b' => N.eqb x y && jsstring_eqb a' b'
  | _, _ => false
  end.

(** JSON text, written with an apostrophe where the text has a double
    quote. *)
Fixpoint json (s : string) : jsstring :=
  match s with
  | EmptyString => []
  | String c s' =>
      (if Ascii.eqb c "'" then 0x22 else N_of_ascii c) :: json s'
  end.

(** The same text as the bytes a peer puts on the wire, and as a frame
    ended by a newline. *)
Fixpoint wire (s : string) : list byte :=
  match s with
  | EmptyString => []
  | String c s' =>
      (if Ascii.eqb c "'" then x22 else byte_of_ascii c) :: wire s'
  end.

Definition frame (s : string) : list byte := wire s ++ [x0a].

(** ** utility.ts: [Result<T, E>] *)

Inductive Result (T E : Type) : Type :=
| Success (value : T)
| Failure (error : E).
Arguments Success {T E} value.
Arguments Failure {T E} error.

(** ** Completions

    A JavaScript evaluation either returns a value or throws.  The
    exception's payload is never inspected by the code, so only the fact
    that something was thrown is kept. *)

Inductive Completion (A : Type) : Type :=
| Returned (a : A)
| Threw.
Arguments Returned {A} a.
Arguments Threw {A}.

Definition bind {A B} (c : Completion A) (k : A -> Completion B) : Completion B :=
  match c with
  | Returned a => k a
  | Threw => Threw
  end.

Notation "'do' x <- c ; k" := (bind c (fun x => k))
  (at level 10, x name, c at level 100, k at level 200).

(** ** Values produced by [JSON.parse]

    Numbers are kept as the exact decimal the text denotes (sign, mantissa,
    power of ten): the code only ever asks for their [typeof].  Objects keep
    their own properties, with distinct keys, in the order [JSON.parse] met
    them (the engine lists integer-like keys first; the code only counts
    the keys). *)

#[warnings="-register-all"]
Inductive JSValue : Type :=
| JNull
| JBool (b : bool)
| JNum (neg : bool) (mantissa : N) (exp10 : Z)
| JStr (s : jsstring)
| JArr (elems : list JSValue)
| JObj (props : list (jsstring * JSValue)).

Definition Props := list (jsstring * JSValue).

(** Own-property lookup. *)
Fixpoint own_get (k : jsstring) (ps : Props) : option JSValue :=
  match ps with
  | [] => None
  | (k', v) :: ps' => if jsstring_eqb k k' then Some v else own_get k ps'
  end.

Definition own_has (k : jsstring) (ps : Props) : bool :=
  match own_get k ps with Some _ => true | None => false end.

(** [CreateDataProperty]: overwrite in place, or append. *)
Fixpoint own_set (k : jsstring) (v : JSValue) (ps : Props) : Props :=
  match ps with
  | [] => [(k, v)]
  | (k', v') :: ps' =>
      if jsstring_eqb k k' then (k', v) :: ps' else (k', v') :: own_set k v ps'
  end.

(** [Object.keys(m)] of an object built by [JSON.parse] (all own properties
    are enumerable string keys). *)
Definition Object_keys (ps : Props) : list jsstring := map fst ps.

(** ** [TextDecoder] and [TextEncoder]

    [new TextDecoder()] is the UTF-8 decoder in its default, non-fatal
    mode: a malformed sequence is replaced by U+FFFD and decoding goes on;
    nothing is thrown.  A leading byte order mark is dropped. *)

Record Utf8State := mkUtf8 {
  u_cp : N;         (* code point being assembled *)
  u_needed : nat;   (* continuation bytes still expected *)
  u_lower : N;      (* bounds for the next continuation byte *)
  u_upper : N
}.

Definition utf8_init : Utf8State := mkUtf8 0 0 0x80 0xBF.

Definition REPLACEMENT : N := 0xFFFD.

(** A code point as UTF-16 code units. *)
Definition utf16_of_cp (cp : N) : jsstring :=
  if cp <? 0x10000 then [cp]
  else let c := cp - 0x10000 in
       [0xD800 + N.shiftr c 10; 0xDC00 + N.land c 0x3FF].

(** The decoder's step when no continuation byte is pending. *)
Definition utf8_lead (b : N) : jsstring * Utf8State :=
  if b <=? 0x7F then ([b], utf8_init)
  else if (0xC2 <=? b) && (b <=? 0xDF) then
    ([], mkUtf8 (N.land b 0x1F) 1 0x80 0xBF)
  else if (0xE0 <=? b) && (b <=? 0xEF) then
    ([], mkUtf8 (N.land b 0xF) 2
           (if b =? 0xE0 then 0xA0 else 0x80)
           (if b =? 0xED then 0x9F else 0xBF))
  else if (0xF0 <=? b) && (b <=? 0xF4) then
    ([], mkUtf8 (N.land b 0x7) 3
           (if b =? 0xF0 then 0x90 else 0x80)
           (if b =? 0xF4 then 0x8F else 0xBF))
  else ([REPLACEMENT], utf8_init).

(** One byte through the decoder.  A byte that cannot continue the pending
    sequence ends it with U+FFFD and is then decoded afresh. *)
Definition utf8_step (st : Utf8State) (b : N) : jsstring * Utf8State :=
  match u_needed st with
  | O => utf8_lead b
  | S n =>
      if (u_lower st <=? b) && (b <=? u_upper st) then
        let cp' := N.lor (N.shiftl (u_cp st) 6) (N.land b 0x3F) in
        match n with
        | O => (utf16_of_cp cp', utf8_init)
        | S _ => ([], mkUtf8 cp' n 0x80 0xBF)
        end
      else
        let (out, st') := utf8_lead b in (REPLACEMENT :: out, st')
  end.

Fixpoint utf8_run (st : Utf8State) (bs : list byte) : jsstring :=
  match bs with
  | [] => match u_needed st with O => [] | S _ => [REPLACEMENT] end
  | b :: bs' =>
      let (out, st') := utf8_step st (Byte.to_N b) in
      out ++ utf8_run st' bs'
  end.

Definition strip_bom (s : jsstring) : jsstring :=
  match s with
  | c :: s' => if c =? 0xFEFF then s' else s
  | [] => s
  end.

(** [new TextDecoder().decode(message)] *)
Definition TextDecoder_decode (bs : list byte) : jsstring :=
  strip_bom (utf8_run utf8_init bs).

Definition is_high_surrogate (c : N) : bool := (0xD800 <=? c) && (c <=? 0xDBFF).
Definition is_low_surrogate (c : N) : bool := (0xDC00 <=? c) && (c <=? 0xDFFF).

(** UTF-16 code units as code points; an unpaired surrogate becomes U+FFFD. *)
Fixpoint code_points (s : jsstring) : list N :=
  match s with
  | [] => []
  | c :: s' =>
      if is_high_surrogate c then
        match s' with
        | d :: s'' =>
            if is_low_surrogate d
            then (0x10000 + (c - 0xD800) * 0x400 + (d - 0xDC00)) :: code_points s''
            else REPLACEMENT :: code_points s'
        | [] => [REPLACEMENT]
        end
      else if is_low_surrogate c then REPLACEMENT :: code_points s'
      else c :: code_points s'
  end.

Definition byte_of_N (n : N) : byte :=
  match Byte.of_N n with Some b => b | None => x00 end.

Definition utf8_of_cp (cp : N) : list byte :=
  map byte_of_N
    (if cp <? 0x80 then [cp]
     else if cp <? 0x800 then
       [0xC0 + N.shiftr cp 6; 0x80 + N.land cp 0x3F]
     else if cp <? 0x10000 then
       [0xE0 + N.shiftr cp 12; 0x80 + N.land (N.shiftr cp 6) 0x3F;
        0x80 + N.land cp 0x3F]
     else
       [0xF0 + N.shiftr cp 18; 0x80 + N.land (N.shiftr cp 12) 0x3F;
        0x80 + N.land (N.shiftr cp 6) 0x3F; 0x80 + N.land cp 0x3F]).

(** [new TextEncoder().encode(s)] *)
Definition TextEncoder_encode (s : jsstring) : list byte :=
  flat_map utf8_of_cp (code_points s).

(** ** [JSON.parse]

    The JSON grammar of ECMA-404 as a pushdown automaton that consumes the
    text one code unit at a time: a lexer state for the token in progress
    and a stack of the arrays and objects still open.  A text is accepted
    when exactly one value, surrounded by JSON whitespace only, has been
    read; anything else makes [JSON.parse] throw a [SyntaxError]. *)

Definition ch (c : ascii) : N := N_of_ascii c.

(** The double quote. *)
Definition QUOTE : N := 0x22.

Definition is_ws (c : N) : bool :=
  (c =? 0x20) || (c =? 0x09) || (c =? 0x0A) || (c =? 0x0D).

Definition is_digit (c : N) : bool := (ch "0" <=? c) && (c <=? ch "9").

Definition digit_val (c : N) : N := c - ch "0".

Definition hex_val (c : N) : option N :=
  if is_digit c then Some (digit_val c)
  else if (ch "a" <=? c) && (c <=? ch "f") then Some (c - ch "a" + 10)
  else if (ch "A" <=? c) && (c <=? ch "F") then Some (c - ch "A" + 10)
  else None.

Definition escape_char (c : N) : option N :=
  if c =? QUOTE then Some (QUOTE)
  else if c =? ch "\" then Some (ch "\")
  else if c =? ch "/" then Some (ch "/")
  else if c =? ch "b" then Some 0x08
  else if c =? ch "f" then Some 0x0C
  else if c =? ch "n" then Some 0x0A
  else if c =? ch "r" then Some 0x0D
  else if c =? ch "t" then Some 0x09
  else None.

(** Inside a string literal, after its opening quote. *)
Inductive StrLex : Type :=
| SChars (acc_rev : jsstring)
| SEsc (acc_rev : jsstring)                  (* after a backslash *)
| SHex (acc_rev : jsstring) (k : nat) (v : N). (* after \u and k hex digits *)

Definition step_str (l : StrLex) (c : N) : option (StrLex + jsstring) :=
  match l with
  | SChars acc =>
      if c =? QUOTE then Some (inr (rev acc))
      else if c =? ch "\" then Some (inl (SEsc acc))
      else if c <? 0x20 then None
      else Some (inl (SChars (c :: acc)))
  | SEsc acc =>
      match escape_char c with
      | Some e => Some (inl (SChars (e :: acc)))
      | None => if c =? ch "u" then Some (inl (SHex acc 0 0)) else None
      end
  | SHex acc k v =>
      match hex_val c with
      | None => None
      | Some d =>
          let v' := v * 16 + d in
          match k with
          | 3%nat => Some (inl (SChars (v' :: acc)))
          | _ => Some (inl (SHex acc (S k) v'))
          end
      end
  end.

Inductive NumPhase : Type :=
| NMinus | NZero | NInt | NDot | NFrac | NExpE | NExpSign | NExp.

Record NumLex := mkNum {
  n_phase : NumPhase;
  n_neg : bool;
  n_mant : N;      (* all digits before the exponent, as one integer *)
  n_scale : N;     (* how many of them follow the decimal point *)
  n_eneg : bool;
  n_exp : N
}.

Definition num_accepting (n : NumLex) : bool :=
  match n_phase n with
  | NZero | NInt | NFrac | NExp => true
  | _ => false
  end.

Definition num_value (n : NumLex) : JSValue :=
  JNum (n_neg n) (n_mant n)
       ((if n_eneg n then - Z.of_N (n_exp n) else Z.of_N (n_exp n))
        - Z.of_N (n_scale n))%Z.

Definition is_e (c : N) : bool := (c =? ch "e") || (c =? ch "E").

(** [None]: the code unit cannot continue the number. *)
Definition step_num (n : NumLex) (c : N) : option NumLex :=
  let '(mkNum ph neg m sc eneg ex) := n in
  match ph with
  | NMinus =>
      if c =? ch "0" then Some (mkNum NZero neg 0 0 false 0)
      else if is_digit c then Some (mkNum NInt neg (digit_val c) 0 false 0)
      else None
  | NZero =>
      if c =? ch "." then Some (mkNum NDot neg m sc eneg ex)
      else if is_e c then Some (mkNum NExpE neg m sc eneg ex)
      else None
  | NInt =>
      if is_digit c then Some (mkNum NInt neg (m * 10 + digit_val c) sc eneg ex)
      else if c =? ch "." then Some (mkNum NDot neg m sc eneg ex)
      else if is_e c then Some (mkNum NExpE neg m sc eneg ex)
      else None
  | NDot =>
      if is_digit c
      then Some (mkNum NFrac neg (m * 10 + digit_val c) (sc + 1) eneg ex)
      else None
  | NFrac =>
      if is_digit c
      then Some (mkNum NFrac neg (m * 10 + digit_val c) (sc + 1) eneg ex)
      else if is_e c then Some (mkNum NExpE neg m sc eneg ex)
      else None
  | NExpE =>
      if c =? ch "+" then Some (mkNum NExpSign neg m sc false ex)
      else if c =? ch "-" then Some (mkNum NExpSign neg m sc true ex)
      else if is_digit c then Some (mkNum NExp neg m sc eneg (digit_val c))
      else None
  | NExpSign =>
      if is_digit c then Some (mkNum NExp neg m sc eneg (digit_val c)) else None
  | NExp =>
      if is_digit c then Some (mkNum NExp neg m sc eneg (ex * 10 + digit_val c))
      else None
  end.

Inductive Mode : Type :=
| MValue                               (* a value must start here *)
| MArrStart                            (* after '[': a value or ']' *)
| MObjStart                            (* after '{': a key or '}' *)
| MObjKey (ps : Props)                 (* after ',' in an object: a key *)
| MKey (ps : Props) (l : StrLex)       (* inside a key *)
| MColon (ps : Props) (k : jsstring)   (* after a key: ':' *)
| MStr (l : StrLex)                    (* inside a string value *)
| MLit (rest : jsstring) (v : JSValue) (* inside true, false or null *)
| MNum (n : NumLex)                    (* inside a number *)
| MAfterElem (done_rev : list JSValue) (* after an element: ',' or ']' *)
| MAfterProp (ps : Props)              (* after a property: ',' or '}' *)
| MDone (v : JSValue).                 (* the outer value is complete *)

(** What a value under construction will be put into once complete. *)
Inductive Frame : Type :=
| FArr (done_rev : list JSValue)
| FObj (ps : Props) (k : jsstring).

Definition PState : Type := Mode * list Frame.

Definition complete (v : JSValue) (stack : list Frame) : PState :=
  match stack with
  | [] => (MDone v, [])
  | FArr d :: st => (MAfterElem (v :: d), st)
  | FObj ps k :: st => (MAfterProp (own_set k v ps), st)
  end.

Definition start_value (c : N) (stack : list Frame) : option PState :=
  if c =? ch "{" then Some (MObjStart, stack)
  else if c =? ch "[" then Some (MArrStart, stack)
  else if c =? QUOTE then Some (MStr (SChars []), stack)
  else if c =? ch "t" then Some (MLit (str "rue") (JBool true), stack)
  else if c =? ch "f" then Some (MLit (str "alse") (JBool false), stack)
  else if c =? ch "n" then Some (MLit (str "ull") JNull, stack)
  else if c =? ch "-" then Some (MNum (mkNum NMinus true 0 0 false 0), stack)
  else if c =? ch "0" then Some (MNum (mkNum NZero false 0 0 false 0), stack)
  else if is_digit c
  then Some (MNum (mkNum NInt false (digit_val c) 0 false 0), stack)
  else None.

(** The step once a value is complete. *)
Definition step_after (st : PState) (c : N) : option PState :=
  let (mode, stack) := st in
  match mode with
  | MAfterElem d =>
      if is_ws c then Some st
      else if c =? ch "," then Some (MValue, FArr d :: stack)
      else if c =? ch "]" then Some (complete (JArr (rev d)) stack)
      else None
  | MAfterProp ps =>
      if is_ws c then Some st
      else if c =? ch "," then Some (MObjKey ps, stack)
      else if c =? ch "}" then Some (complete (JObj ps) stack)
      else None
  | MDone _ => if is_ws c then Some st else None
  | _ => None
  end.

Definition step (st : PState) (c : N) : option PState :=
  let (mode, stack) := st in
  match mode with
  | MValue => if is_ws c then Some st else start_value c stack
  | MArrStart =>
      if is_ws c then Some st
      else if c =? ch "]" then Some (complete (JArr []) stack)
      else start_value c (FArr [] :: stack)
  | MObjStart =>
      if is_ws c then Some st
      else if c =? ch "}" then Some (complete (JObj []) stack)
      else if c =? QUOTE then Some (MKey [] (SChars []), stack)
      else None
  | MObjKey ps =>
      if is_ws c then Some st
      else if c =? QUOTE then Some (MKey ps (SChars []), stack)
      else None
  | MKey ps l =>
      match step_str l c with
      | Some (inl l') => Some (MKey ps l', stack)
      | Some (inr k) => Some (MColon ps k, stack)
      | None => None
      end
  | MColon ps k =>
      if is_ws c then Some st
      else if c =? ch ":" then Some (MValue, FObj ps k :: stack)
      else None
  | MStr l =>
      match step_str l c with
      | Some (inl l') => Some (MStr l', stack)
      | Some (inr s) => Some (complete (JStr s) stack)
      | None => None
      end
  | MLit rest v =>
      match rest with
      | x :: r =>
          if c =? x then
            match r with
            | [] => Some (complete v stack)
            | _ :: _ => Some (MLit r v, stack)
            end
          else None
      | [] => None
      end
  | MNum n =>
      match step_num n c with
      | Some n' => Some (MNum n', stack)
      | None =>
          if num_accepting n
          then step_after (complete (num_value n) stack) c
          else None
      end
  | MAfterElem _ | MAfterProp _ | MDone _ => step_after st c
  end.

Fixpoint run_parser (st : PState) (s : jsstring) : option PState :=
  match s with
  | [] => Some st
  | c :: s' =>
      match step st c with
      | Some st' => run_parser st' s'
      | None => None
      end
  end.

(** End of text. *)
Definition finish (st : PState) : option JSValue :=
  match st with
  | (MDone v, _) => Some v
  | (MNum n, []) => if num_accepting n then Some (num_value n) else None
  | _ => None
  end.

(** [JSON.parse(text)]: the value, or a thrown [SyntaxError]. *)
Definition JSON_parse (text : jsstring) : Completion JSValue :=
  match run_parser (MValue, []) text with
  | Some st =>
      match finish st with
      | Some v => Returned v
      | None => Threw
      end
  | None => Threw
  end.

(** ** [JSON.stringify] on strings

    [QuoteJSONString]: the text between double quotes, with the quote, the
    backslash and control characters escaped, and unpaired surrogates
    written as \u escapes.  It never throws. *)

Definition hex_digit (d : N) : N :=
  if d <? 10 then ch "0" + d else ch "a" + (d - 10).

Definition unicode_escape (c : N) : jsstring :=
  [ch "\"; ch "u";
   hex_digit ((c / 4096) mod 16); hex_digit ((c / 256) mod 16);
   hex_digit ((c / 16) mod 16); hex_digit (c mod 16)].

Definition quote_unit (c : N) : jsstring :=
  if c =? 0x08 then [ch "\"; ch "b"]
  else if c =? 0x09 then [ch "\"; ch "t"]
  else if c =? 0x0A then [ch "\"; ch "n"]
  else if c =? 0x0C then [ch "\"; ch "f"]
  else if c =? 0x0D then [ch "\"; ch "r"]
  else if c =? QUOTE then [ch "\"; QUOTE]
  else if c =? ch "\" then [ch "\"; ch "\"]
  else if c <? 0x20 then unicode_escape c
  else [c].

Fixpoint quote_body (s : jsstring) : jsstring :=
  match s with
  | [] => []
  | c :: s' =>
      if is_high_surrogate c then
        match s' with
        | d :: s'' =>
            if is_low_surrogate d then c :: d :: quote_body s''
            else unicode_escape c ++ quote_body s'
        | [] => unicode_escape c
        end
      else if is_low_surrogate c then unicode_escape c ++ quote_body s'
      else quote_unit c ++ quote_body s'
  end.

Definition QuoteJSONString (s : jsstring) : jsstring :=
  QUOTE :: quote_body s ++ [QUOTE].

(** [JSON.stringify] of an object whose property values are all strings,
    the properties in the order written. *)
Fixpoint stringify_members (ps : list (jsstring * jsstring)) : jsstring :=
  match ps with
  | [] => []
  | [(k, v)] => QuoteJSONString k ++ ch ":" :: QuoteJSONString v
  | (k, v) :: ps' =>
      QuoteJSONString k ++ ch ":" :: QuoteJSONString v
        ++ ch "," :: stringify_members ps'
  end.

Definition JSON_stringify_record (ps : list (jsstring * jsstring)) : jsstring :=
  ch "{" :: stringify_members ps ++ [ch "}"].

(** ** The [json-canonicalize] dependency

    [canonicalize(obj)] serializes an [obj] that is not an object (a
    string, here) with [JSON.stringify(obj)]. *)

Definition canonicalize (obj : jsstring) : jsstring := QuoteJSONString obj.

(** ** message.ts *)

Definition canonicalizeMessage (message : jsstring) : jsstring :=
  canonicalize message.

(** [try { body } catch (_err) { handler }] *)
Definition try_catch {A} (body handler : Completion A) : Completion A :=
  match body with
  | Returned a => Returned a
  | Threw => handler
  end.

Definition parseMessage (message : list byte)
  : Completion (Result JSValue jsstring) :=
  let messageString := TextDecoder_decode message in
  (* console.log(`Received message: ${messageString}`) *)
  try_catch
    (do parsedMessage <- JSON_parse messageString;
     Returned (Success parsedMessage))
    (Returned (Failure (str "Message object is not valid JSON"))).

(** *** Operators and built-ins used by [convertMessage] *)

Inductive TypeTag : Type :=
| TUndefined | TObject | TBoolean | TNumber | TString.

Definition TypeTag_eqb (a b : TypeTag) : bool :=
  match a, b with
  | TUndefined, TUndefined | TObject, TObject | TBoolean, TBoolean
  | TNumber, TNumber | TString, TString => true
  | _, _ => false
  end.

(** [typeof x]; [None] is [undefined]. *)
Definition typeof (x : option JSValue) : TypeTag :=
  match x with
  | None => TUndefined
  | Some JNull | Some (JArr _) | Some (JObj _) => TObject
  | Some (JBool _) => TBoolean
  | Some (JNum _ _ _) => TNumber
  | Some (JStr _) => TString
  end.

(** [m.k] for the property names the code reads ([type], [version],
    [agent], [name], [description], [peers], [objectid], [object], [txids],
    [blockid]): neither [Object.prototype] nor [Array.prototype] defines
    any of them, so only an own property of an object can answer. *)
Definition js_get (k : jsstring) (m : JSValue) : option JSValue :=
  match m with
  | JObj ps => own_get k ps
  | _ => None
  end.

(** ['type' in message]: a [TypeError] when [message] is not an object;
    an array has no property of that name. *)
Definition js_in_type (message : JSValue) : Completion bool :=
  match message with
  | JObj ps => Returned (own_has (str "type") ps)
  | JArr _ => Returned false
  | _ => Threw
  end.

(** [Object.keys(m).length] *)
Definition Object_keys_length (m : JSValue) : nat :=
  match m with
  | JObj ps => List.length (Object_keys ps)
  | JArr l => List.length l
  | _ => 0%nat
  end.

(** [Array.isArray(x) && x.every(e => typeof e === 'string')] *)
Definition is_string_array (x : option JSValue) : bool :=
  match x with
  | Some (JArr l) => forallb (fun e => TypeTag_eqb (typeof (Some e)) TString) l
  | _ => false
  end.

Definition is_string (x : option JSValue) : bool :=
  TypeTag_eqb (typeof x) TString.

(** *** Property keys

    [ToString] of a value used as a property key or in a template
    literal.  The decimal rendering of a number is not computed: a text
    that contains one is [KNumeric].  Such a rendering contains a digit or
    is an infinity, so a [KNumeric] text is none of the property names
    looked up below. *)

Inductive KeyText : Type :=
| KText (s : jsstring)
| KNumeric.

Definition key_append (a b : KeyText) : KeyText :=
  match a, b with
  | KText x, KText y => KText (x ++ y)
  | _, _ => KNumeric
  end.

(** An object from [JSON.parse] converts through the inherited
    [toString], giving [[object Object]], unless an own property named
    [toString] (never callable) shadows it: then the conversion falls
    through [valueOf] and throws a [TypeError].  An array converts by
    [join], where [null] elements give the empty text. *)
Fixpoint js_ToString (v : JSValue) : Completion KeyText :=
  match v with
  | JNull => Returned (KText (str "null"))
  | JBool true => Returned (KText (str "true"))
  | JBool false => Returned (KText (str "false"))
  | JNum _ _ _ => Returned KNumeric
  | JStr s => Returned (KText s)
  | JArr l =>
      (fix join (first : bool) (l : list JSValue) : Completion KeyText :=
         match l with
         | [] => Returned (KText [])
         | x :: l' =>
             do next <- match x with
                        | JNull => Returned (KText [])
                        | _ => js_ToString x
                        end;
             do rest <- join false l';
             Returned (key_append
                         (if first then next
                          else key_append (KText [ch ","]) next)
                         rest)
         end) true l
  | JObj ps =>
      if own_has (str "toString") ps then Threw
      else Returned (KText (str "[object Object]"))
  end.

(** [ToPropertyKey]; [undefined] gives the key [undefined]. *)
Definition ToPropertyKey (x : option JSValue) : Completion KeyText :=
  match x with
  | None => Returned (KText (str "undefined"))
  | Some v => js_ToString v
  end.

(** The function-valued properties every object literal inherits from
    [Object.prototype].  (The runtime removes the [__proto__] accessor.) *)
Inductive ProtoMember : Type :=
| PConstructor | PToString | PToLocaleString | PValueOf
| PHasOwnProperty | PIsPrototypeOf | PPropertyIsEnumerable
| PDefineGetter | PDefineSetter | PLookupGetter | PLookupSetter.

Definition Object_prototype : list (jsstring * ProtoMember) :=
  [ (str "constructor", PConstructor);
    (str "toString", PToString);
    (str "toLocaleString", PToLocaleString);
    (str "valueOf", PValueOf);
    (str "hasOwnProperty", PHasOwnProperty);
    (str "isPrototypeOf", PIsPrototypeOf);
    (str "propertyIsEnumerable", PPropertyIsEnumerable);
    (str "__defineGetter__", PDefineGetter);
    (str "__defineSetter__", PDefineSetter);
    (str "__lookupGetter__", PLookupGetter);
    (str "__lookupSetter__", PLookupSetter) ].

(** Calling an inherited member as a plain function on an object
    argument, its [this] being [undefined]; the result is only tested for
    truthiness.  [Object(m)] is [m]; [toString] answers
    [[object Undefined]]; every other member starts by converting [this]
    to an object and throws a [TypeError]. *)
Definition call_unbound (p : ProtoMember) (m : JSValue) : Completion bool :=
  match p with
  | PConstructor => Returned true
  | PToString => Returned true
  | _ => Threw
  end.

Fixpoint assoc {A} (k : jsstring) (l : list (jsstring * A)) : option A :=
  match l with
  | [] => None
  | (k', a) :: l' => if jsstring_eqb k k' then Some a else assoc k l'
  end.

Definition is_null (x : option JSValue) : bool :=
  match x with Some JNull => true | _ => false end.

(** *** [convertMessage] *)

(** The [validators] object literal. *)
Definition validators : list (jsstring * (JSValue -> bool)) :=
  [ (str "hello", fun m =>
       is_string (js_get (str "version") m) && is_string (js_get (str "agent") m));
    (str "error", fun m =>
       is_string (js_get (str "name") m)
       && is_string (js_get (str "description") m));
    (str "getpeers", fun m => Nat.eqb (Object_keys_length m) 1);
    (str "getmempool", fun m => Nat.eqb (Object_keys_length m) 1);
    (str "getchaintip", fun m => Nat.eqb (Object_keys_length m) 1);
    (str "peers", fun m => is_string_array (js_get (str "peers") m));
    (str "getobject", fun m => is_string (js_get (str "objectid") m));
    (str "ihaveobject", fun m => is_string (js_get (str "objectid") m));
    (str "object", fun m =>
       TypeTag_eqb (typeof (js_get (str "object") m)) TObject
       && negb (is_null (js_get (str "object") m)));
    (str "mempool", fun m => is_string_array (js_get (str "txids") m));
    (str "chaintip", fun m => is_string (js_get (str "blockid") m)) ].

(** What [validators[type]] evaluates to. *)
Inductive Looked : Type :=
| LOwn (f : JSValue -> bool)
| LInherited (p : ProtoMember)
| LUndefined.

Definition validators_at (key : KeyText) : Looked :=
  match key with
  | KNumeric => LUndefined
  | KText k =>
      match assoc k validators with
      | Some f => LOwn f
      | None =>
          match assoc k Object_prototype with
          | Some p => LInherited p
          | None => LUndefined
          end
      end
  end.

(** [validator && validator(msg)], as tested by [if]. *)
Definition call_validator (validator : Looked) (msg : JSValue) : Completion bool :=
  match validator with
  | LUndefined => Returned false
  | LOwn f => Returned (f msg)
  | LInherited p => call_unbound p msg
  end.

Definition not_valid_format : jsstring := str "Message JSON is not in valid format".

Definition convertMessage (message : JSValue)
  : Completion (Result JSValue jsstring) :=
  do has_type <- js_in_type message;
  if negb has_type then Returned (Failure not_valid_format)
  else
    let msg := message in
    let type := js_get (str "type") msg in
    do key <- ToPropertyKey type;
    let validator := validators_at key in
    do ok <- call_validator validator msg;
    if ok then Returned (Success msg)
    else Returned (Failure not_valid_format).

(** The tags of the [Message] union and the literals of
    [MessageError.name]. *)
Definition message_types : list jsstring :=
  [ str "hello"; str "error"; str "getpeers"; str "peers"; str "getobject";
    str "ihaveobject"; str "object"; str "getmempool"; str "mempool";
    str "getchaintip"; str "chaintip" ].

Definition error_names : list jsstring :=
  [ str "INTERNAL_ERROR"; str "INVALID_FORMAT"; str "UNKNOWN_OBJECT";
    str "UNFINDABLE_OBJECT"; str "INVALID_HANDSHAKE";
    str "INVALID_TX_OUTPOINT"; str "INVALID_TX_SIGNATURE";
    str "INVALID_TX_CONSERVATION"; str "INVALID_BLOCK_COINBASE";
    str "INVALID_BLOCK_TIMESTAMP"; str "INVALID_BLOCK_POW";
    str "INVALID_GENESIS" ].

Definition mem (s : jsstring) (l : list jsstring) : bool :=
  existsb (jsstring_eqb s) l.

(** ** The connection server

    The transport side of a [Deno.Conn] is a script: what each pending
    [read] would deliver were the caller's buffer unbounded, or a failure.
    An exhausted script is end of stream.  The events the properties below
    speak about are recorded in a trace. *)

Inductive ReadEvent : Type :=
| Data (bs : list byte)
| ReadFails.

Record Conn := mkConn {
  incoming : list ReadEvent;
  write_ok : bool;               (* does the peer still take writes? *)
  written : list (list byte);    (* one entry per [conn.write], oldest first *)
  closed : bool
}.

Inductive Event : Type :=
| EvRead (bs : list byte)    (* [conn.read] delivered these bytes *)
| EvParse (bs : list byte)   (* [parseMessage] was called on these bytes *)
| EvHandle (m : JSValue).    (* the "Handle valid message..." point *)

Record World := mkWorld {
  conn : Conn;
  buffer : list byte;            (* the handler's [Uint8Array] *)
  trace : list Event
}.

(** State and exceptions: a computation returns or throws, and leaves a
    world behind either way. *)
Definition M (A : Type) : Type := World -> Completion A * World.

Definition ret {A} (a : A) : M A := fun w => (Returned a, w).

Definition bindM {A B} (m : M A) (k : A -> M B) : M B :=
  fun w =>
    match m w with
    | (Returned a, w') => k a w'
    | (Threw, w') => (Threw, w')
    end.

Definition lift {A} (c : Completion A) : M A := fun w => (c, w).

Definition try_catchM {A} (body handler : M A) : M A :=
  fun w =>
    match body w with
    | (Returned a, w') => (Returned a, w')
    | (Threw, w') => handler w'
    end.

Declare Scope m_scope.
Delimit Scope m_scope with M.
Notation "x <- m ;; k" := (bindM m (fun x => k))
  (at level 61, m at next level, right associativity) : m_scope.
Notation "m ;; k" := (bindM m (fun _ => k))
  (at level 61, right associativity) : m_scope.

Definition record (e : Event) : M unit :=
  fun w => (Returned tt, mkWorld (conn w) (buffer w) (trace w ++ [e])).

Definition set_incoming (c : Conn) (i : list ReadEvent) : Conn :=
  mkConn i (write_ok c) (written c) (closed c).

(** [await conn.read(buffer)]: [null] at end of stream; otherwise as many
    of the deliverable bytes as fit are copied to the front of [buffer] and
    counted, and the rest stay with the transport for the next read. *)
Definition conn_read : M (option nat) :=
  fun w =>
    match incoming (conn w) with
    | [] => (Returned None, w)
    | ReadFails :: rest =>
        (Threw, mkWorld (set_incoming (conn w) rest) (buffer w) (trace w))
    | Data bs :: rest =>
        let n := Nat.min (List.length bs) (List.length (buffer w)) in
        let delivered := firstn n bs in
        let rest' := match skipn n bs with
                     | [] => rest
                     | remaining => Data remaining :: rest
                     end in
        (Returned (Some n),
         mkWorld (set_incoming (conn w) rest')
                 (delivered ++ skipn n (buffer w))
                 (trace w ++ [EvRead delivered]))
    end.

(** [await conn.write(bytes)] *)
Definition conn_write (bs : list byte) : M unit :=
  fun w =>
    let c := conn w in
    if write_ok c
    then (Returned tt,
          mkWorld (mkConn (incoming c) (write_ok c) (written c ++ [bs]) (closed c))
                  (buffer w) (trace w))
    else (Threw, w).

(** [conn.close()] *)
Definition conn_close : M unit :=
  fun w =>
    let c := conn w in
    (Returned tt,
     mkWorld (mkConn (incoming c) (write_ok c) (written c) true)
             (buffer w) (trace w)).

(** [buffer.subarray(0, end)] *)
Definition subarray (buf : list byte) (end_ : nat) : list byte := firstn end_ buf.

Definition error_response (code message : jsstring) : jsstring :=
  JSON_stringify_record
    [ (str "type", str "error"); (str "code", code); (str "message", message) ].

Definition sendError (code message : jsstring) : M unit :=
  let errorResponse := error_response code message in
  try_catchM
    (conn_write (TextEncoder_encode errorResponse))
    (ret tt).   (* console.error("Failed to send error message:", err) *)

(** Truthiness.  A number is falsy when it is zero (a tiny decimal that
    rounds to zero is not told apart here; the only use below goes on to
    require [typeof] to be [object]). *)
Definition truthy (v : JSValue) : bool :=
  match v with
  | JNull => false
  | JBool b => b
  | JNum _ m _ => negb (m =? 0)
  | JStr s => match s with [] => false | _ => true end
  | JArr _ | JObj _ => true
  end.

(** [a && b] where [b] may throw. *)
Definition and_then (a : bool) (b : Completion bool) : Completion bool :=
  if a then b else Returned false.

(** [validTypes.includes(x)] *)
Definition includes (l : list jsstring) (x : option JSValue) : bool :=
  match x with
  | Some (JStr s) => mem s l
  | _ => false
  end.

Definition validTypes : list jsstring :=
  [ str "connect"; str "disconnect"; str "message" ].

Definition isValidMessageType (message : JSValue) : Completion bool :=
  and_then (truthy message)
    (and_then (TypeTag_eqb (typeof (Some message)) TObject)
       (do has_type <- js_in_type message;
        and_then has_type
          (Returned (includes validTypes (js_get (str "type") message))))).

Inductive Flow : Type := Continue | Break.

Definition INVALID_FORMAT : jsstring := str "INVALID_FORMAT".

Local Open Scope m_scope.

(** One turn of [while (true)]. *)
Definition iteration : M Flow :=
  try_catchM
    (bytesRead <- conn_read ;;
     match bytesRead with
     | None => ret Break                       (* connection closed *)
     | Some n =>
         input <- (fun w => (Returned (subarray (buffer w) n), w)) ;;
         record (EvParse input) ;;
         messageResult <- lift (parseMessage input) ;;
         match messageResult with
         | Failure error =>
             sendError INVALID_FORMAT error ;;
             ret Continue
         | Success message =>
             (* console.log(`Received message: ${message}`) *)
             lift (js_ToString message) ;;
             valid <- lift (isValidMessageType message) ;;
             if negb valid then
               sendError INVALID_FORMAT (str "Invalid message type") ;;
               ret Continue
             else
               record (EvHandle message) ;;   (* Handle valid message... *)
               ret Continue
         end
     end)
    (* catch (err): console.error("Failed to read from connection:", err) *)
    (ret Break).

(** The loop, for at most [fuel] turns; the answer tells whether the loop
    was left ([true]) or the turns ran out ([false]). *)
Fixpoint loop (fuel : nat) : M bool :=
  match fuel with
  | O => ret false
  | S fuel' =>
      flow <- iteration ;;
      match flow with
      | Break => ret true
      | Continue => loop fuel'
      end
  end.

Definition handler (fuel : nat) : M bool :=
  fun w => loop fuel (mkWorld (conn w) (repeat x00 1024) (trace w)).

(** The handler is started and not awaited; the [catch] around the start
    closes the connection. *)
Definition handleConnection (fuel : nat) : M bool :=
  try_catchM
    (handler fuel)
    (conn_close ;; ret true).

(** A freshly accepted connection. *)
Definition accept (c : Conn) : World := mkWorld c [] [].

Definition peer (script : list ReadEvent) : Conn := mkConn script true [] false.

(** Turns that certainly exhaust a script. *)
Fixpoint turns_needed (script : list ReadEvent) : nat :=
  match script with
  | [] => 1
  | ReadFails :: _ => 1
  | Data bs :: rest => S (List.length bs / 1024) + turns_needed rest
  end.

Fixpoint parse_inputs (t : list Event) : list (list byte) :=
  match t with
  | [] => []
  | EvParse bs :: t' => bs :: parse_inputs t'
  | _ :: t' => parse_inputs t'
  end.

Fixpoint read_results (t : list Event) : list (list byte) :=
  match t with
  | [] => []
  | EvRead bs :: t' => bs :: read_results t'
  | _ :: t' => read_results t'
  end.

Fixpoint handled (t : list Event) : list JSValue :=
  match t with
  | [] => []
  | EvHandle m :: t' => m :: handled t'
  | _ :: t' => handled t'
  end.

Local Close Scope m_scope.

(** ** Invariants of the read loop *)

(** All bytes a script still holds. *)
Fixpoint pending (script : list ReadEvent) : list byte :=
  match script with
  | [] => []
  | Data bs :: rest => bs ++ pending rest
  | ReadFails :: rest => pending rest
  end.

(** Every parser input is the result of one read into the 1024-byte
    buffer. *)
Definition reads_parsed (w : World) : Prop :=
  List.length (buffer w) = 1024%nat
  /\ parse_inputs (trace w) = read_results (trace w)
  /\ Forall (fun bs => (List.length bs <= 1024)%nat) (parse_inputs (trace w)).

(** Of the stream [c0] started with, what is not with the transport any
    more has been given to the parser. *)
Definition nothing_held_back (c0 : Conn) (w : World) : Prop :=
  List.concat (parse_inputs (trace w)) ++ pending (incoming (conn w))
  = pending (incoming c0).

(** The messages one parser input brings to the dispatch point. *)
Definition dispatched (bs : list byte) : list JSValue :=
  match parseMessage bs with
  | Returned (Success m) =>
      match js_ToString m, isValidMessageType m with
      | Returned _, Returned true => [m]
      | _, _ => []
      end
  | _ => []
  end.

Definition format_error (description : jsstring) : list byte :=
  TextEncoder_encode (error_response INVALID_FORMAT description).


(** Dispatch depends on each input alone; every reply is an
    [INVALID_FORMAT] error; the connection is as open as it was. *)
Definition no_handshake_state (c0 : Conn) (w : World) : Prop :=
  closed (conn w) = closed c0
  /\ handled (trace w) = flat_map dispatched (parse_inputs (trace w))
  /\ exists ds, written (conn w) = written c0 ++ map format_error ds.

(** ** Inputs used in examples *)

Definition hello_frame : list byte :=
  frame "{'type':'hello','version':'0.10.0','agent':'test'}".

Definition getpeers_frame : list byte := frame "{'type':'getpeers'}".

Definition invalid_type_reply : list byte :=
  wire "{'type':'error','code':'INVALID_FORMAT','message':'Invalid message type'}".

Definition error_object (code message : jsstring) : JSValue :=
  JObj [ (str "type", JStr (str "error"));
         (str "code", JStr code);
         (str "message", JStr message) ].

Definition connect_message : JSValue :=
  JObj [ (str "type", JStr (str "connect")) ].

Definition not_json_reply : list byte :=
  wire "{'type':'error','code':'INVALID_FORMAT','message':'Message object is not valid JSON'}".

(** ** The declared fields of the message variants

    One constructor per member of the [Message] union, with its tag and
    the names of the fields its type declares beside [type]. *)

Inductive Variant : Type :=
| Hello | Error | GetPeers | Peers | GetObject | IHaveObject
| Object | GetMempool | Mempool | GetChainTip | ChainTip.

Definition tag (v : Variant) : jsstring :=
  match v with
  | Hello => str "hello"
  | Error => str "error"
  | GetPeers => str "getpeers"
  | Peers => str "peers"
  | GetObject => str "getobject"
  | IHaveObject => str "ihaveobject"
  | Object => str "object"
  | GetMempool => str "getmempool"
  | Mempool => str "mempool"
  | GetChainTip => str "getchaintip"
  | ChainTip => str "chaintip"
  end.

Definition declared_fields (v : Variant) : list jsstring :=
  match v with
  | Hello => [str "version"; str "agent"]
  | Error => [str "name"; str "description"]
  | GetPeers | GetMempool | GetChainTip => []
  | Peers => [str "peers"]
  | GetObject | IHaveObject => [str "objectid"]
  | Object => [str "object"]
  | Mempool => [str "txids"]
  | ChainTip => [str "blockid"]
  end.

(** The object has the [type] key and no other. *)
Definition only_type (ps : Props) : Prop := Object_keys ps = [str "type"].

(** What [quote_body] writes for a code unit that is not half of a
    surrogate pair. *)
Definition piece (c : N) : jsstring :=
  if is_high_surrogate c || is_low_surrogate c then unicode_escape c
  else quote_unit c.

(** ** Further definitions *)

(** What the loop writes back for one parser input when the peer takes
    writes. *)
Definition reply (bs : list byte) : list (list byte) :=
  match parseMessage bs with
  | Returned (Failure error) => [format_error error]
  | Returned (Success m) =>
      match js_ToString m, isValidMessageType m with
      | Returned _, Returned false =>
          [format_error (str "Invalid message type")]
      | _, _ => []
      end
  | Threw => []
  end.

(** The same connection with another answer to writes. *)
Definition with_write_ok (b : bool) (c : Conn) : Conn :=
  mkConn (incoming c) b (written c) (closed c).

(** The part of a world that reading, parsing and dispatching see. *)
Definition same_input (w1 w2 : World) : Prop :=
  incoming (conn w1) = incoming (conn w2)
  /\ buffer w1 = buffer w2
  /\ trace w1 = trace w2.

(** No surrogate code unit is left unpaired. *)
Fixpoint well_formed (s : jsstring) : bool :=
  match s with
  | [] => true
  | c :: s' =>
      if is_high_surrogate c then
        match s' with
        | d :: s'' => is_low_surrogate d && well_formed s''
        | [] => false
        end
      else negb (is_low_surrogate c) && well_formed s'
  end.

(** Every element is a 16-bit code unit. *)
Definition code_units (s : jsstring) : Prop := Forall (fun c => c < 0x10000) s.

(** For a peer that takes writes: the replies are those of the parser
    inputs, in order. *)
Definition replies_follow_inputs (c0 : Conn) (w : World) : Prop :=
  write_ok (conn w) = true
  /\ written (conn w) = written c0 ++ flat_map reply (parse_inputs (trace w)).

(** The literal under way in a parser state holds no whitespace. *)
Definition literal_ok (st : PState) : Prop :=
  match fst st with
  | MLit rest _ => forallb (fun c => negb (is_ws c)) rest = true
  | _ => True
  end.

(** A code unit that may stand as it is inside a JSON string. *)
Definition string_unit (u : N) : Prop := 0x20 <= u /\ u <> 0x22 /\ u <> 0x5C.

(** What holds of the UTF-8 decoder's state between two bytes: the bounds
    for a continuation byte, and enough of the code point under way for it
    to end at U+0080 or above. *)
Definition decoder_ok (st : Utf8State) : Prop :=
  0x80 <= u_lower st /\ u_upper st <= 0xBF
  /\ match u_needed st with
     | 0%nat => True
     | 1%nat => 2 <= u_cp st
     | 2%nat => 1 <= u_cp st \/ 0xA0 <= u_lower st
     | _ => 1 <= u_cp st \/ 0x90 <= u_lower st
     end.

(** An object or an array. *)
Definition structured (v : JSValue) : Prop :=
  match v with
  | JArr _ | JObj _ => True
  | _ => False
  end.

Definition not_valid_json : jsstring := str "Message object is not valid JSON".

(** What the reads of one stretch of incoming bytes deliver into the
    1024-byte buffer: the bytes as they are when they fit, and otherwise
    1024 of them at a time. *)
Fixpoint cut (fuel : nat) (bs : list byte) : list (list byte) :=
  firstn 1024 bs ::
  match fuel with
  | O => []
  | S fuel' =>
      match skipn 1024 bs with
      | [] => []
      | remaining => cut fuel' remaining
      end
  end.

(** What the reads of a script deliver, in order. *)
Fixpoint deliveries (script : list ReadEvent) : list (list byte) :=
  match script with
  | [] => []
  | Data bs :: rest => cut (List.length bs) bs ++ deliveries rest
  | ReadFails :: rest => deliveries rest
  end.

(** The parser inputs so far, followed by what the reads to come deliver,
    are what the reads of the stream [c0] started with deliver. *)
Definition reads_in_order (c0 : Conn) (w : World) : Prop :=
  List.length (buffer w) = 1024%nat
  /\ parse_inputs (trace w) ++ deliveries (incoming (conn w))
     = deliveries (incoming c0).
(** * Properties *)

(** ** Strings *)

Lemma jsstring_eqb_eq (a b : jsstring) : jsstring_eqb a b = true <-> a = b.
Proof.
  revert b; induction a as [|x a IH]; intros [|y b]; simpl; split;
    try congruence; try reflexivity.
  - rewrite andb_true_iff, N.eqb_eq, IH. intros [-> ->]. reflexivity.
  - intros H. injection H as -> ->. rewrite N.eqb_refl. simpl. now apply IH.
Qed.

(** ** [JSON.parse] *)

Lemma run_parser_app (st : PState) (s1 s2 : jsstring) :
  run_parser st (s1 ++ s2)
  = match run_parser st s1 with
    | Some st' => run_parser st' s2
    | None => None
    end.
Proof.
  revert st; induction s1 as [|c s1 IH]; intros st; simpl; [reflexivity|].
  destruct (step st c); [apply IH | reflexivity].
Qed.

(** Anything but whitespace after a complete outer value is a syntax
    error. *)
Lemma JSON_parse_trailing_garbage (text rest : jsstring) (c : N)
      (v : JSValue) (stack : list Frame) :
  run_parser (MValue, []) text = Some (MDone v, stack) ->
  is_ws c = false ->
  JSON_parse (text ++ c :: rest) = Threw.
Proof.
  intros Hrun Hc. unfold JSON_parse.
  rewrite run_parser_app, Hrun. simpl. rewrite Hc. reflexivity.
Qed.

(** ** [JSON.stringify] on strings, read back by [JSON.parse] *)

Lemma list_ind_pairs {A} (P : list A -> Prop) :
  P [] ->
  (forall a, P [a]) ->
  (forall a b l, P l -> P (b :: l) -> P (a :: b :: l)) ->
  forall l, P l.
Proof.
  intros H0 H1 H2 l.
  assert (H : P l /\ forall a, P (a :: l)).
  { induction l as [|b l [IHl IHc]]; split; auto. }
  apply H.
Qed.

(** [quote_body] either copies a surrogate pair or writes the [piece] of
    its first code unit. *)
Lemma quote_body_cons (c : N) (s : jsstring) :
  (exists d s', s = d :: s'
                /\ is_high_surrogate c = true /\ is_low_surrogate d = true
                /\ quote_body (c :: s) = c :: d :: quote_body s')
  \/ quote_body (c :: s) = piece c ++ quote_body s.
Proof.
  unfold piece. cbn [quote_body].
  destruct (is_high_surrogate c) eqn:Hh; cbn [orb].
  - destruct s as [|d s']; [right; now rewrite app_nil_r|].
    destruct (is_low_surrogate d) eqn:Hl; [left|right; reflexivity].
    exists d, s'. auto.
  - right. destruct (is_low_surrogate c); reflexivity.
Qed.

Lemma hex_val_hex_digit (d : N) : d < 16 -> hex_val (hex_digit d) = Some d.
Proof.
  intros Hd.
  assert (H : In d [0;1;2;3;4;5;6;7;8;9;10;11;12;13;14;15]) by (simpl; lia).
  simpl in H.
  repeat (destruct H as [<-|H]; [reflexivity|]). contradiction.
Qed.

Lemma hex_digits_value (c : N) :
  c < 65536 ->
  (((0 * 16 + (c / 4096) mod 16) * 16 + (c / 256) mod 16) * 16
   + (c / 16) mod 16) * 16 + c mod 16 = c.
Proof.
  intros Hc.
  pose proof (N.div_mod c 16 ltac:(lia)) as H0.
  pose proof (N.div_mod (c / 16) 16 ltac:(lia)) as H1.
  pose proof (N.div_mod (c / 256) 16 ltac:(lia)) as H2.
  pose proof (N.div_mod (c / 4096) 16 ltac:(lia)) as H3.
  replace (c / 256) with (c / 16 / 16) in * by (rewrite N.Div0.div_div; reflexivity).
  replace (c / 4096) with (c / 16 / 16 / 16) in * by (rewrite !N.Div0.div_div; reflexivity).
  assert (H4 : c / 16 / 16 / 16 / 16 = 0).
  { rewrite !N.Div0.div_div. apply N.div_small. exact Hc. }
  rewrite H4 in H3.
  assert (H5 : (c / 16 / 16 / 16) mod 16 = c / 16 / 16 / 16) by lia.
  lia.
Qed.

Lemma step_hex (acc : jsstring) (k : nat) (v d : N) (stack : list Frame) :
  d < 16 ->
  step (MStr (SHex acc k v), stack) (hex_digit d)
  = Some (match k with
          | 3%nat => MStr (SChars ((v * 16 + d) :: acc))
          | _ => MStr (SHex acc (S k) (v * 16 + d))
          end, stack).
Proof.
  intros Hd. unfold step, step_str. rewrite (hex_val_hex_digit d Hd).
  destruct k as [|[|[|[|k]]]]; reflexivity.
Qed.

Lemma step_raw (acc : jsstring) (c : N) (stack : list Frame) :
  c <> QUOTE -> c <> ch "\" -> 0x20 <= c ->
  step (MStr (SChars acc), stack) c = Some (MStr (SChars (c :: acc)), stack).
Proof.
  intros Hq Hb Hc. unfold step, step_str.
  apply N.eqb_neq in Hq, Hb. rewrite Hq, Hb.
  destruct (c <? 0x20) eqn:E; [apply N.ltb_lt in E; lia | reflexivity].
Qed.

Lemma run_unicode_escape (c : N) (acc rest : jsstring) (stack : list Frame) :
  c < 65536 ->
  run_parser (MStr (SChars acc), stack) (unicode_escape c ++ rest)
  = run_parser (MStr (SChars (c :: acc)), stack) rest.
Proof.
  intros Hc. unfold unicode_escape. cbn [app run_parser].
  change (step (MStr (SChars acc), stack) (ch "\"))
    with (Some (MStr (SEsc acc), stack)).
  cbv beta iota.
  change (step (MStr (SEsc acc), stack) (ch "u"))
    with (Some (MStr (SHex acc 0 0), stack)).
  cbv beta iota.
  do 4 (rewrite step_hex by (apply N.mod_lt; lia); cbv beta iota).
  rewrite (hex_digits_value c Hc). reflexivity.
Qed.

Lemma surrogate_range (c : N) :
  is_high_surrogate c || is_low_surrogate c = true -> 0xD800 <= c <= 0xDFFF.
Proof.
  unfold is_high_surrogate, is_low_surrogate.
  rewrite orb_true_iff, !andb_true_iff, !N.leb_le. lia.
Qed.

Lemma run_quote_unit (c : N) (acc rest : jsstring) (stack : list Frame) :
  run_parser (MStr (SChars acc), stack) (quote_unit c ++ rest)
  = run_parser (MStr (SChars (c :: acc)), stack) rest.
Proof.
  unfold quote_unit.
  repeat match goal with
         | |- context [if ?x =? ?y then _ else _] =>
             destruct (N.eqb_spec x y) as [->|?]; [reflexivity|]
         end.
  destruct (c <? 0x20) eqn:E.
  - apply N.ltb_lt in E. apply run_unicode_escape. lia.
  - apply N.ltb_ge in E. cbn [app run_parser].
    rewrite step_raw by assumption. reflexivity.
Qed.

Lemma run_piece (c : N) (acc rest : jsstring) (stack : list Frame) :
  run_parser (MStr (SChars acc), stack) (piece c ++ rest)
  = run_parser (MStr (SChars (c :: acc)), stack) rest.
Proof.
  unfold piece.
  destruct (is_high_surrogate c || is_low_surrogate c) eqn:E.
  - apply surrogate_range in E. apply run_unicode_escape. lia.
  - apply run_quote_unit.
Qed.

Lemma run_quote_body (s : jsstring) :
  forall acc rest stack,
    run_parser (MStr (SChars acc), stack) (quote_body s ++ rest)
    = run_parser (MStr (SChars (rev s ++ acc)), stack) rest.
Proof.
  induction s as [|a|a b l IHl IHbl] using list_ind_pairs;
    intros acc rest stack.
  - reflexivity.
  - destruct (quote_body_cons a []) as [(d & s' & H & _)|Hq]; [discriminate H|rewrite Hq].
    cbn [quote_body]. rewrite app_nil_r. apply run_piece.
  - destruct (quote_body_cons a (b :: l)) as [(d & s' & H & Ha & Hd & Hq)|Hq]; rewrite Hq.
    + injection H as <- <-.
      assert (Ra : 0xD800 <= a <= 0xDFFF)
        by (apply surrogate_range; rewrite Ha; reflexivity).
      assert (Rb : 0xD800 <= b <= 0xDFFF)
        by (apply surrogate_range; rewrite Hd; apply orb_true_r).
      cbn [app run_parser].
      rewrite step_raw by (unfold QUOTE, ch; cbn; lia).
      rewrite step_raw by (unfold QUOTE, ch; cbn; lia).
      rewrite IHl. cbn [rev]. rewrite <- !app_assoc. reflexivity.
    + rewrite <- app_assoc, run_piece, IHbl.
      cbn [rev]. rewrite <- !app_assoc. reflexivity.
Qed.

Lemma JSON_parse_QuoteJSONString (s : jsstring) :
  JSON_parse (QuoteJSONString s) = Returned (JStr s).
Proof.
  unfold JSON_parse, QuoteJSONString. cbn [run_parser].
  change (step (MValue, []) QUOTE) with (Some (MStr (SChars []), @nil Frame)).
  cbv beta iota. rewrite run_quote_body. cbn [run_parser].
  change (step (MStr (SChars (rev s ++ [])), []) QUOTE)
    with (Some (MDone (JStr (rev (rev s ++ []))), @nil Frame)).
  cbv beta iota. cbn [finish]. rewrite app_nil_r, rev_involutive. reflexivity.
Qed.

Lemma piece_nonempty (c : N) : (1 <= List.length (piece c))%nat.
Proof.
  unfold piece, quote_unit, unicode_escape.
  repeat match goal with
         | |- context [if ?x then _ else _] => destruct x
         end; simpl; lia.
Qed.

Lemma quote_body_length (s : jsstring) :
  (List.length s <= List.length (quote_body s))%nat.
Proof.
  induction s as [|a|a b l IHl IHbl] using list_ind_pairs.
  - simpl; lia.
  - destruct (quote_body_cons a []) as [(d & s' & H & _)|Hq]; [discriminate H|rewrite Hq].
    rewrite length_app. pose proof (piece_nonempty a). simpl. lia.
  - destruct (quote_body_cons a (b :: l)) as [(d & s' & H & _ & _ & Hq)|Hq]; rewrite Hq.
    + injection H as <- <-. simpl. lia.
    + rewrite length_app. pose proof (piece_nonempty a). simpl in *. lia.
Qed.

(** ** [canonicalizeMessage] *)

(** C8 fails as stated.  Canonicalizing [{}] twice differs from
    canonicalizing it once, and two texts of the same JSON value
    canonicalize differently. *)
Lemma canonicalizeMessage_not_idempotent :
  canonicalizeMessage (json "{}") = json "'{}'"
  /\ canonicalizeMessage (canonicalizeMessage (json "{}")) = json "'\'{}\''"
  /\ canonicalizeMessage (canonicalizeMessage (json "{}"))
     <> canonicalizeMessage (json "{}")
  /\ JSON_parse (json "{}") = JSON_parse (json " {}")
  /\ canonicalizeMessage (json "{}") <> canonicalizeMessage (json " {}").
Proof.
  repeat split; try (vm_compute; reflexivity); vm_compute; discriminate.
Qed.

(** C8, as amended.  [canonicalizeMessage] rejects no text: its output
    is the JSON string literal of its input, which [JSON.parse] reads back
    as that very text.  So it is injective, and it is not idempotent:
    canonicalizing an output again gives a different text. *)
Theorem canonicalizeMessage_quotes_its_input (s : jsstring) :
  JSON_parse (canonicalizeMessage s) = Returned (JStr s)
  /\ (forall s', canonicalizeMessage s = canonicalizeMessage s' -> s = s')
  /\ canonicalizeMessage (canonicalizeMessage s) <> canonicalizeMessage s.
Proof.
  unfold canonicalizeMessage, canonicalize.
  split; [apply JSON_parse_QuoteJSONString|]. split.
  - intros s' H. apply (f_equal JSON_parse) in H.
    rewrite !JSON_parse_QuoteJSONString in H. now injection H.
  - intros H. apply (f_equal JSON_parse) in H.
    rewrite !JSON_parse_QuoteJSONString in H. injection H as H.
    apply (f_equal (@List.length N)) in H. unfold QuoteJSONString in H.
    cbn [List.length] in H. rewrite length_app in H.
    pose proof (quote_body_length s). simpl in H. lia.
Qed.

(** ** [parseMessage] *)

Lemma parseMessage_returns (bs : list byte) :
  exists r, parseMessage bs = Returned r.
Proof.
  unfold parseMessage, try_catch, bind.
  destruct (JSON_parse (TextDecoder_decode bs)); eauto.
Qed.

Example parseMessage_malformed :
  parseMessage (wire "{not json")
  = Returned (Failure (str "Message object is not valid JSON")).
Proof. vm_compute. reflexivity. Qed.

Example parseMessage_trailing_garbage :
  parseMessage (wire "{'type':'getpeers'} x")
  = Returned (Failure (str "Message object is not valid JSON")).
Proof. vm_compute. reflexivity. Qed.

(** C7 fails as stated.  A byte slice that is not valid UTF-8 is parsed
    with success, and the value of a success can be a string, a number or
    [null]. *)
Lemma parseMessage_accepts_invalid_utf8_and_primitives :
  parseMessage [x22; xff; x22] = Returned (Success (JStr [REPLACEMENT]))
  /\ parseMessage (wire "1") = Returned (Success (JNum false 1 0))
  /\ parseMessage (wire "null") = Returned (Success JNull).
Proof. repeat split; vm_compute; reflexivity. Qed.

(** ** [convertMessage] *)

Lemma is_string_iff (x : option JSValue) :
  is_string x = true <-> exists s, x = Some (JStr s).
Proof.
  unfold is_string. destruct x as [[| | | s | |]|]; simpl; split;
    try discriminate; try (intros [s' H]; discriminate H); eauto.
Qed.

Lemma is_string_array_iff (x : option JSValue) :
  is_string_array x = true
  <-> exists l, x = Some (JArr l) /\ Forall (fun e => exists s, e = JStr s) l.
Proof.
  destruct x as [[| | | | l |]|]; simpl; split;
    try discriminate; try (intros (l' & H & _); discriminate H).
  - intros H. exists l. split; [reflexivity|].
    rewrite forallb_forall in H. apply Forall_forall. intros e He.
    specialize (H e He). destruct e; simpl in H; try discriminate H. eauto.
  - intros (l' & H & Hall). injection H as <-.
    apply forallb_forall. intros e He. rewrite Forall_forall in Hall.
    destruct (Hall e He) as [s ->]. reflexivity.
Qed.

Lemma is_structured_iff (x : option JSValue) :
  TypeTag_eqb (typeof x) TObject && negb (is_null x) = true
  <-> (exists l, x = Some (JArr l)) \/ (exists q, x = Some (JObj q)).
Proof.
  destruct x as [[| | | | l | q]|]; cbn; split; intros H;
    try discriminate H; try reflexivity;
    try (left; eexists; reflexivity); try (right; eexists; reflexivity);
    destruct H as [[? H]|[? H]]; discriminate H.
Qed.

Lemma only_type_iff (ps : Props) :
  own_has (str "type") ps = true ->
  (Nat.eqb (List.length (Object_keys ps)) 1 = true <-> only_type ps).
Proof.
  unfold only_type, own_has, Object_keys. intros Hhas.
  destruct ps as [|[k v] [|p ps]];
    cbn [own_get map fst List.length Nat.eqb] in *.
  - discriminate Hhas.
  - destruct (jsstring_eqb (str "type") k) eqn:E; [|discriminate Hhas].
    apply jsstring_eqb_eq in E. subst k. split; reflexivity.
  - split; discriminate.
Qed.

(** C5 fails as stated.  A [hello] object with an extra field is
    accepted. *)
Lemma hello_with_extra_field_is_accepted :
  exists m,
    JSON_parse (json "{'type':'hello','version':'0.10.0','agent':'test','extra':1}")
      = Returned m
    /\ Object_keys_length m = 4%nat
    /\ convertMessage m = Returned (Success m).
Proof.
  eexists; split; [vm_compute; reflexivity|]. split; vm_compute; reflexivity.
Qed.

(** C4.  [validators[type]] also finds what the table inherits and
    converts [type] to a property key: a [type] of [toString], no message
    type, is accepted; a [type] of [valueOf] makes [convertMessage] throw;
    a [type] that is the array [["hello"]], no string, is accepted. *)
Theorem convertMessage_follows_the_prototype_chain :
  (exists m,
      JSON_parse (json "{'type':'toString'}") = Returned m
      /\ mem (str "toString") message_types = false
      /\ convertMessage m = Returned (Success m))
  /\ (exists m,
      JSON_parse (json "{'type':'valueOf'}") = Returned m
      /\ convertMessage m = Threw)
  /\ (exists m,
      JSON_parse (json "{'type':['hello'],'version':'0.10.0','agent':'test'}")
        = Returned m
      /\ typeof (js_get (str "type") m) = TObject
      /\ convertMessage m = Returned (Success m)).
Proof.
  repeat split; eexists; (split; [vm_compute; reflexivity|]);
    repeat split; vm_compute; reflexivity.
Qed.

(** C6.  An [error] object whose [name] is a string outside the 12 error
    codes is accepted. *)
Theorem error_with_unknown_name_is_accepted :
  exists m,
    JSON_parse (json "{'type':'error','name':'NOT_A_CODE','description':'x'}")
      = Returned m
    /\ js_get (str "name") m = Some (JStr (str "NOT_A_CODE"))
    /\ mem (str "NOT_A_CODE") error_names = false
    /\ convertMessage m = Returned (Success m).
Proof.
  eexists; split; [vm_compute; reflexivity|].
  repeat split; vm_compute; reflexivity.
Qed.

(** ** [sendError] *)

Lemma sendError_cases (code message : jsstring) (w : World) :
  sendError code message w =
    (Returned tt,
     if write_ok (conn w)
     then mkWorld (mkConn (incoming (conn w)) (write_ok (conn w))
                          (written (conn w)
                             ++ [TextEncoder_encode (error_response code message)])
                          (closed (conn w)))
                  (buffer w) (trace w)
     else w).
Proof.
  unfold sendError, try_catchM, conn_write, ret.
  destruct (write_ok (conn w)); reflexivity.
Qed.

(** The text [sendError] serializes, around the two quoted arguments. *)
Lemma error_response_text (code message : jsstring) :
  error_response code message
  = json "{'type':'error','code':'" ++ quote_body code
      ++ json "','message':'" ++ quote_body message ++ json "'}".
Proof.
  unfold error_response, JSON_stringify_record.
  cbn [stringify_members].
  change (QuoteJSONString (str "type")) with (json "'type'").
  change (QuoteJSONString (str "error")) with (json "'error'").
  change (QuoteJSONString (str "code")) with (json "'code'").
  change (QuoteJSONString (str "message")) with (json "'message'").
  unfold QuoteJSONString.
  generalize (quote_body code) as X. generalize (quote_body message) as Y.
  intros Y X. cbn. repeat (rewrite <- app_assoc; cbn). reflexivity.
Qed.

(** Read back, that text is an object with the properties [type], [code]
    and [message]. *)
Lemma JSON_parse_error_response (code message : jsstring) :
  JSON_parse (error_response code message)
  = Returned (error_object code message).
Proof.
  rewrite error_response_text. unfold JSON_parse.
  rewrite run_parser_app.
  change (run_parser (MValue, []) (json "{'type':'error','code':'"))
    with (Some (MStr (SChars []),
                [FObj [(str "type", JStr (str "error"))] (str "code")])).
  cbv beta iota. rewrite run_quote_body, app_nil_r.
  rewrite run_parser_app.
  change (run_parser
            (MStr (SChars (rev code)),
             [FObj [(str "type", JStr (str "error"))] (str "code")])
            (json "','message':'"))
    with (Some (MStr (SChars []),
                [FObj [(str "type", JStr (str "error"));
                       (str "code", JStr (rev (rev code)))] (str "message")])).
  cbv beta iota. rewrite run_quote_body, app_nil_r.
  change (run_parser
            (MStr (SChars (rev message)),
             [FObj [(str "type", JStr (str "error"));
                    (str "code", JStr (rev (rev code)))] (str "message")])
            (json "'}"))
    with (Some (MDone (JObj [(str "type", JStr (str "error"));
                             (str "code", JStr (rev (rev code)));
                             (str "message", JStr (rev (rev message)))]),
                @nil Frame)).
  cbv beta iota. cbn [finish]. rewrite !rev_involutive. reflexivity.
Qed.

Lemma error_object_rejected (code message : jsstring) :
  js_get (str "name") (error_object code message) = None
  /\ js_get (str "description") (error_object code message) = None
  /\ convertMessage (error_object code message)
     = Returned (Failure not_valid_format).
Proof. repeat split. Qed.

(** C1.  For every pair, the message [sendError] serializes and writes
    has the fields [type], [code] and [message]: read back it has neither
    [name] nor [description], and [convertMessage] rejects it.  So it is
    on the wire for [(INVALID_FORMAT, "Invalid message type")], the call
    the read loop makes. *)
Theorem sendError_writes_code_and_message :
  (forall code message,
      written (conn (snd (sendError code message (accept (peer [])))))
      = [TextEncoder_encode (error_response code message)]
      /\ JSON_parse (error_response code message)
         = Returned (error_object code message)
      /\ js_get (str "name") (error_object code message) = None
      /\ js_get (str "description") (error_object code message) = None
      /\ convertMessage (error_object code message)
         = Returned (Failure not_valid_format))
  /\ TextEncoder_encode
       (error_response INVALID_FORMAT (str "Invalid message type"))
     = invalid_type_reply
  /\ exists m,
       parseMessage invalid_type_reply = Returned (Success m)
       /\ convertMessage m = Returned (Failure not_valid_format).
Proof.
  split; [|split].
  - intros code message. split; [|split].
    + rewrite sendError_cases. reflexivity.
    + apply JSON_parse_error_response.
    + apply error_object_rejected.
  - vm_compute. reflexivity.
  - eexists. split; vm_compute; reflexivity.
Qed.

(** ** The read loop: one turn, and what every turn preserves *)

Lemma isValidMessageType_returns (m : JSValue) :
  exists b, isValidMessageType m = Returned b.
Proof.
  unfold isValidMessageType, and_then, bind.
  destruct m as [|b|neg mant e|s|l|ps]; cbn;
    repeat match goal with
           | |- context [if ?c then _ else _] => destruct c
           end; eauto.
Qed.

Ltac simpl_world :=
  cbn [fst snd conn buffer trace incoming written closed write_ok set_incoming] in *.

(** Unfolds one turn of the loop into its paths. *)
Ltac turn w :=
  unfold iteration, try_catchM, bindM, conn_read, record, lift, ret;
  let bs := fresh "bs" in
  let rest := fresh "rest" in
  destruct (incoming (conn w)) as [|[bs|] rest] eqn:?; simpl_world;
  [ | match goal with
      | |- context [parseMessage ?i] =>
          let r := fresh "r" in
          let m := fresh "m" in
          let e := fresh "e" in
          let Hr := fresh "Hparse" in
          destruct (parseMessage_returns i) as [r Hr]; rewrite Hr;
          destruct r as [m|e];
          [ destruct (js_ToString m) eqn:?;
            [ let b := fresh "b" in
              let Hb := fresh "Hvalid" in
              destruct (isValidMessageType_returns m) as [b Hb]; rewrite Hb;
              destruct b; cbn [negb]; rewrite ?sendError_cases
            | ]
          | rewrite ?sendError_cases ]
      end
    | ];
  simpl_world.

Lemma iteration_returns (w : World) :
  exists f, fst (iteration w) = Returned f.
Proof. turn w; eauto. Qed.

Lemma loop_returns (fuel : nat) (w : World) :
  exists b, fst (loop fuel w) = Returned b.
Proof.
  revert w; induction fuel as [|fuel IH]; intros w; simpl.
  - eexists; reflexivity.
  - unfold bindM. destruct (iteration_returns w) as [f Hf].
    destruct (iteration w) as [c w']; simpl in Hf; subst c.
    destruct f; [apply IH | eexists; reflexivity].
Qed.

(** A property of worlds that every turn preserves holds after the loop. *)
Lemma loop_preserves (P : World -> Prop) :
  (forall w, P w -> P (snd (iteration w))) ->
  forall fuel w, P w -> P (snd (loop fuel w)).
Proof.
  intros Hstep fuel; induction fuel as [|fuel IH]; intros w Hw; simpl.
  - exact Hw.
  - unfold bindM. specialize (Hstep w Hw).
    destruct (iteration_returns w) as [f Hf].
    destruct (iteration w) as [c w']; simpl in Hf, Hstep; subst c.
    destruct f; [now apply IH | exact Hstep].
Qed.

(** The [catch] around the start of the handler is never entered. *)
Lemma handleConnection_is_loop (fuel : nat) (w : World) :
  handleConnection fuel w = loop fuel (mkWorld (conn w) (repeat x00 1024) (trace w)).
Proof.
  unfold handleConnection, try_catchM, handler.
  destruct (loop_returns fuel (mkWorld (conn w) (repeat x00 1024) (trace w))) as [b Hb].
  destruct (loop fuel _) as [c w']; simpl in Hb; subst c. reflexivity.
Qed.

Lemma parse_inputs_app (t1 t2 : list Event) :
  parse_inputs (t1 ++ t2) = parse_inputs t1 ++ parse_inputs t2.
Proof.
  induction t1 as [|[bs|bs|m] t1 IH]; simpl; rewrite ?IH; reflexivity.
Qed.

Lemma read_results_app (t1 t2 : list Event) :
  read_results (t1 ++ t2) = read_results t1 ++ read_results t2.
Proof.
  induction t1 as [|[bs|bs|m] t1 IH]; simpl; rewrite ?IH; reflexivity.
Qed.

Lemma handled_app (t1 t2 : list Event) :
  handled (t1 ++ t2) = handled t1 ++ handled t2.
Proof.
  induction t1 as [|[bs|bs|m] t1 IH]; simpl; rewrite ?IH; reflexivity.
Qed.

(** What [buffer.subarray(0, bytesRead)] holds after a read: the bytes
    that read delivered, and nothing left over from earlier reads. *)
Lemma subarray_after_read (bs buf : list byte) :
  let n := Nat.min (List.length bs) (List.length buf) in
  subarray (firstn n bs ++ skipn n buf) n = firstn n bs
  /\ List.length (firstn n bs ++ skipn n buf) = List.length buf
  /\ (List.length (firstn n bs) <= List.length buf)%nat.
Proof.
  intros n. unfold subarray.
  assert (Hn : List.length (firstn n bs) = n).
  { rewrite length_firstn. subst n. lia. }
  repeat split.
  - rewrite firstn_app, Hn, Nat.sub_diag. simpl. rewrite app_nil_r.
    rewrite firstn_firstn. now rewrite Nat.min_id.
  - rewrite length_app, Hn, length_skipn. subst n. lia.
  - rewrite Hn. subst n. lia.
Qed.

(** ** The loop comes to an end *)

Lemma turns_after_read (bs : list byte) (rest : list ReadEvent) :
  (turns_needed match skipn (Nat.min (List.length bs) 1024) bs with
                | [] => rest
                | remaining => Data remaining :: rest
                end
   < turns_needed (Data bs :: rest))%nat.
Proof.
  cbn [turns_needed].
  destruct (skipn (Nat.min (List.length bs) 1024) bs) as [|b l] eqn:E; [lia|].
  assert (Hl : List.length (b :: l) = (List.length bs - Nat.min (List.length bs) 1024)%nat).
  { rewrite <- E. apply length_skipn. }
  cbn [turns_needed]. 
  assert (Hlong : (1024 < List.length bs)%nat) by (simpl in Hl; lia).
  rewrite Hl, Nat.min_r by lia.
  replace (List.length bs) with ((List.length bs - 1024) + 1 * 1024)%nat at 2 by lia.
  rewrite Nat.div_add by lia. lia.
Qed.

Lemma iteration_progress (w : World) :
  List.length (buffer w) = 1024%nat ->
  fst (iteration w) = Returned Break
  \/ (fst (iteration w) = Returned Continue
      /\ List.length (buffer (snd (iteration w))) = 1024%nat
      /\ (turns_needed (incoming (conn (snd (iteration w))))
          < turns_needed (incoming (conn w)))%nat).
Proof.
  intros Hlen. turn w; auto.
  all: right; split; [reflexivity|].
  all: try match goal with
    | |- context [if ?c then _ else _] => destruct c
    end; simpl_world.
  all: rewrite Hlen; split;
    [ destruct (subarray_after_read bs (buffer w)) as (_ & Hl & _);
      rewrite Hlen in Hl; exact Hl
    | apply turns_after_read ].
Qed.

Lemma loop_exits (fuel : nat) (w : World) :
  List.length (buffer w) = 1024%nat ->
  (turns_needed (incoming (conn w)) <= fuel)%nat ->
  fst (loop fuel w) = Returned true.
Proof.
  revert w; induction fuel as [|fuel IH]; intros w Hlen Hfuel.
  - destruct (incoming (conn w)) as [|[bs|] rest]; simpl in Hfuel; lia.
  - cbn [loop]. unfold bindM.
    destruct (iteration_progress w Hlen) as [Hb|(Hc & Hlen' & Hlt)];
      destruct (iteration w) as [c w']; cbn [fst snd] in *; subst c.
    + reflexivity.
    + apply IH; [assumption | lia].
Qed.

(** Run for as many turns as its script needs, the handler leaves the
    loop. *)
Lemma handleConnection_exits (c : Conn) (fuel : nat) :
  (turns_needed (incoming c) <= fuel)%nat ->
  fst (handleConnection fuel (accept c)) = Returned true.
Proof.
  intros H. rewrite handleConnection_is_loop.
  apply loop_exits; [apply repeat_length | exact H].
Qed.

(** ** What the parser is given *)

Lemma iteration_reads_parsed (w : World) :
  reads_parsed w -> reads_parsed (snd (iteration w)).
Proof.
  intros (Hlen & Heq & Hall).
  turn w.
  all: unfold reads_parsed; cbn [buffer trace].
  all: try (repeat split; assumption).
  all: try match goal with
    | |- context [if ?c then _ else _] => destruct c; cbn [buffer trace]
    end.
  all: destruct (subarray_after_read bs (buffer w)) as (Hs & Hl & Hle);
    rewrite Hs, Hl;
    rewrite ?parse_inputs_app, ?read_results_app; cbn [parse_inputs read_results];
    rewrite ?app_nil_r, Heq;
    (split; [assumption | split; [reflexivity|]]);
    rewrite <- Heq; apply Forall_app; split; [assumption|];
    constructor; [lia | constructor].
Qed.

(** C10.  Each call of [parseMessage] in the read loop gets exactly the
    bytes one [conn.read] put into the 1024-byte buffer: the parser inputs
    are, in order, the results of the reads, none longer than 1024 bytes
    and none joined with another; so a message longer than 1024 bytes is
    never one parser input. *)
Theorem parse_inputs_are_single_reads (c : Conn) (fuel : nat) :
  let t := trace (snd (handleConnection fuel (accept c))) in
  parse_inputs t = read_results t
  /\ Forall (fun bs => (List.length bs <= 1024)%nat) (parse_inputs t)
  /\ (forall message, (1024 < List.length message)%nat -> ~ In message (parse_inputs t)).
Proof.
  intros t. subst t. rewrite handleConnection_is_loop.
  assert (H : reads_parsed (snd (loop fuel (mkWorld (conn (accept c)) (repeat x00 1024) (trace (accept c)))))).
  { apply loop_preserves; [exact iteration_reads_parsed|].
    split; [apply repeat_length | split; [reflexivity | constructor]]. }
  destruct H as (_ & Heq & Hall). repeat split; try assumption.
  intros message Hlong Hin. rewrite Forall_forall in Hall.
  specialize (Hall _ Hin). lia.
Qed.

(** A message that arrives in two reads reaches the parser as two
    inputs, each rejected. *)
Example split_message_is_parsed_in_halves :
  let r := handleConnection 3
             (accept (peer [ Data (wire "{'type':'conn");
                             Data (frame "ect'}") ])) in
  fst r = Returned true
  /\ parse_inputs (trace (snd r)) = [ wire "{'type':'conn"; frame "ect'}" ]
  /\ written (conn (snd r)) = [ not_json_reply; not_json_reply ]
  /\ handled (trace (snd r)) = [].
Proof. cbv zeta. repeat split; vm_compute; reflexivity. Qed.

(** A message longer than the buffer reaches the parser cut at 1024
    bytes. *)
Lemma long_message_is_cut (bs : list byte) :
  (1024 < List.length bs)%nat ->
  parse_inputs (trace (snd (handleConnection 1 (accept (peer [Data bs])))))
  = [firstn 1024 bs].
Proof.
  intros Hlong. rewrite handleConnection_is_loop.
  cbn [loop]. unfold bindM.
  set (w := mkWorld (conn (accept (peer [Data bs]))) (repeat x00 1024)
                    (trace (accept (peer [Data bs])))).
  assert (Hin : incoming (conn w) = [Data bs]) by reflexivity.
  assert (Hbuf : List.length (buffer w) = 1024%nat) by apply repeat_length.
  assert (Htr : trace w = []) by reflexivity.
  assert (H : parse_inputs (trace (snd (iteration w))) = [firstn 1024 bs]).
  { turn w; try discriminate.
    all: injection Hin as -> ->.
    all: try match goal with
      | |- context [if ?c then _ else _] => destruct c
      end; simpl_world.
    all: destruct (subarray_after_read bs (buffer w)) as (Hs & _ & _);
      rewrite Hs, Hbuf, Htr, Nat.min_r by lia; reflexivity. }
  destruct (iteration w) as [[[|]|] w']; cbn [fst snd] in *; exact H.
Qed.

Lemma pending_after_read (n : nat) (bs : list byte) (rest : list ReadEvent) :
  firstn n bs
    ++ pending match skipn n bs with
               | [] => rest
               | remaining => Data remaining :: rest
               end
  = bs ++ pending rest.
Proof.
  rewrite <- (firstn_skipn n bs) at 3. rewrite <- app_assoc. f_equal.
  destruct (skipn n bs); reflexivity.
Qed.

Lemma iteration_nothing_held_back (c0 : Conn) (w : World) :
  nothing_held_back c0 w -> nothing_held_back c0 (snd (iteration w)).
Proof.
  unfold nothing_held_back. intros H.
  turn w; try assumption.
  all: try match goal with
    | |- context [if ?c then _ else _] => destruct c; cbn [conn trace incoming]
    end.
  all: rewrite <- H;
    try match goal with Heq : incoming _ = _ |- _ => rewrite Heq end;
    cbn [pending]; try reflexivity.
  all: destruct (subarray_after_read bs (buffer w)) as (Hs & _ & _);
    rewrite Hs; rewrite ?parse_inputs_app; cbn [parse_inputs];
    rewrite ?app_nil_r, concat_app; cbn [List.concat];
    rewrite app_nil_r, <- app_assoc; f_equal; apply pending_after_read.
Qed.

(** C9 fails as stated.  Two frames that arrive in one read are parsed
    as one input, and rejected; a message with no newline after it is
    parsed and dispatched at once. *)
Lemma read_loop_ignores_newlines :
  let two := frame "{'type':'connect'}" ++ frame "{'type':'connect'}" in
  let none := wire "{'type':'connect'}" in
  let r2 := handleConnection 2 (accept (peer [Data two])) in
  let r0 := handleConnection 2 (accept (peer [Data none])) in
  parse_inputs (trace (snd r2)) = [two]
  /\ handled (trace (snd r2)) = []
  /\ written (conn (snd r2)) = [not_json_reply]
  /\ parse_inputs (trace (snd r0)) = [none]
  /\ handled (trace (snd r0)) = [connect_message].
Proof. cbv zeta. repeat split; vm_compute; reflexivity. Qed.

(** ** Validation and dispatch in the loop *)


Lemma iteration_no_handshake_state (c0 : Conn) (w : World) :
  no_handshake_state c0 w -> no_handshake_state c0 (snd (iteration w)).
Proof.
  intros (Hc & Hh & ds & Hw).
  turn w.
  all: unfold no_handshake_state.
  all: try match goal with
    | |- context [if ?c then _ else _] => destruct c eqn:?
    end.
  all: simpl_world.
  all: try (split; [assumption | split; [assumption | exists ds; assumption]]).
  all: destruct (subarray_after_read bs (buffer w)) as (Hs & _ & _);
    rewrite Hs in *.
  all: rewrite ?parse_inputs_app, ?handled_app; cbn [parse_inputs handled];
    rewrite ?app_nil_r, ?flat_map_app; cbn [flat_map].
  all: unfold dispatched at 2; rewrite Hparse;
    repeat match goal with
           | H : js_ToString _ = _ |- _ => rewrite H; clear H
           | H : isValidMessageType _ = _ |- _ => rewrite H; clear H
           end;
    rewrite ?app_nil_r, <- Hh.
  all: split; [assumption | split; [reflexivity|]].
  all: try (exists ds; exact Hw).
  all: match goal with
       | |- context [TextEncoder_encode (error_response INVALID_FORMAT ?d)] =>
           change (TextEncoder_encode (error_response INVALID_FORMAT d))
             with (format_error d);
           exists (ds ++ [d]); rewrite map_app, app_assoc, <- Hw; reflexivity
       end.
Qed.


(** C2.  The read loop checks a parsed frame against [validTypes], not
    against the 11 message variants: the single frame
    [{"type":"hello","version":"0.10.0","agent":"test"}\n] is answered
    with an [INVALID_FORMAT] error and is not dispatched, although
    [convertMessage] accepts it. *)
Theorem hello_frame_is_answered_with_an_error :
  let r := handleConnection 2 (accept (peer [Data hello_frame])) in
  fst r = Returned true
  /\ written (conn (snd r)) = [invalid_type_reply]
  /\ handled (trace (snd r)) = []
  /\ exists m,
       parseMessage hello_frame = Returned (Success m)
       /\ isValidMessageType m = Returned false
       /\ convertMessage m = Returned (Success m).
Proof.
  cbv zeta. split; [vm_compute; reflexivity|].
  split; [vm_compute; reflexivity|].
  split; [vm_compute; reflexivity|].
  eexists. split; [vm_compute; reflexivity|].
  split; vm_compute; reflexivity.
Qed.

(** * Further properties *)

(** ** More on [convertMessage] and [isValidMessageType] *)

Lemma assoc_validators_none (t : jsstring) :
  mem t message_types = false -> assoc t validators = None.
Proof.
  unfold mem, message_types, validators. cbn [existsb assoc].
  intros H. repeat rewrite orb_false_iff in H.
  repeat match goal with
         | H : _ /\ _ |- _ => destruct H
         end.
  repeat match goal with
         | H : jsstring_eqb t ?k = false |- _ => rewrite H; clear H
         end.
  reflexivity.
Qed.

(** X7.  An object whose [type] is a string that is neither one of the 11
    message types nor the name of a member inherited from
    [Object.prototype] makes [convertMessage] return a failure. *)
Theorem convertMessage_unknown_type_fails (ps : Props) (t : jsstring) :
  own_get (str "type") ps = Some (JStr t) ->
  mem t message_types = false ->
  assoc t Object_prototype = None ->
  convertMessage (JObj ps) = Returned (Failure not_valid_format).
Proof.
  intros Ht Hm Hp. unfold convertMessage, bind. cbn [js_in_type js_get].
  unfold own_has. rewrite Ht. cbn [negb ToPropertyKey js_ToString].
  unfold validators_at. rewrite (assoc_validators_none t Hm), Hp.
  reflexivity.
Qed.

(** X7 at the object [{"type":"connect"}]. *)
Lemma convertMessage_unknown_type_fails_witness :
  convertMessage (JObj [(str "type", JStr (str "connect"))])
  = Returned (Failure not_valid_format).
Proof.
  apply (convertMessage_unknown_type_fails _ (str "connect")); reflexivity.
Defined.

(** X6.  When [convertMessage] succeeds, the value it returns is its
    argument, nothing added or removed, and the argument is an object
    with an own [type] property. *)
Theorem convertMessage_success_is_input (m v : JSValue) :
  convertMessage m = Returned (Success v) ->
  v = m /\ exists ps x, m = JObj ps /\ own_get (str "type") ps = Some x.
Proof.
  unfold convertMessage, bind.
  destruct m as [| | | | l | ps]; cbn [js_in_type]; try discriminate.
  unfold own_has. cbn [js_get].
  destruct (own_get (str "type") ps) as [x|] eqn:Ht; cbn [negb]; [|discriminate].
  destruct (ToPropertyKey (Some x)) as [key|]; [|discriminate].
  destruct (call_validator (validators_at key) (JObj ps)) as [[|]|];
    try discriminate.
  intros H. injection H as <-. split; [reflexivity|]. eauto.
Qed.

(** X6 at the object [{"type":"getpeers"}]. *)
Lemma convertMessage_success_is_input_witness :
  let m := JObj [(str "type", JStr (str "getpeers"))] in
  convertMessage m = Returned (Success m)
  /\ (m = m /\ exists ps x, m = JObj ps /\ own_get (str "type") ps = Some x).
Proof.
  cbv zeta. split; [reflexivity|].
  apply convertMessage_success_is_input. reflexivity.
Defined.

Lemma mem_In (t : jsstring) (l : list jsstring) : mem t l = true <-> In t l.
Proof.
  unfold mem. rewrite existsb_exists. split.
  - intros (x & Hx & E). apply jsstring_eqb_eq in E. now subst.
  - intros H. exists t. split; [assumption | now apply jsstring_eqb_eq].
Qed.

Lemma isValidMessageType_true_inv (m : JSValue) :
  isValidMessageType m = Returned true ->
  exists ps t, m = JObj ps
               /\ own_get (str "type") ps = Some (JStr t)
               /\ In t validTypes.
Proof.
  unfold isValidMessageType, and_then, bind.
  destruct m as [|b|neg mant e|s|l|ps];
    cbn [truthy typeof TypeTag_eqb js_in_type js_get].
  1-5: repeat match goal with
              | |- context [if ?c then _ else _] => destruct c
              end; discriminate.
  unfold own_has, includes.
  destruct (own_get (str "type") ps) as [[| | |t| |]|] eqn:Ht;
    intros H; try discriminate H.
  exists ps, t. split; [reflexivity|]. split; [exact Ht|].
  apply mem_In. now injection H.
Qed.

(** X8.  [isValidMessageType] never throws, whatever value it is given,
    and answers [true] exactly for an object whose own [type] is one of
    the strings [connect], [disconnect] and [message]. *)
Theorem isValidMessageType_spec (m : JSValue) :
  (exists b, isValidMessageType m = Returned b)
  /\ (isValidMessageType m = Returned true
      <-> exists ps t, m = JObj ps
                       /\ own_get (str "type") ps = Some (JStr t)
                       /\ In t validTypes).
Proof.
  split; [apply isValidMessageType_returns|].
  split; [apply isValidMessageType_true_inv|].
  intros (ps & t & -> & Ht & Hin).
  unfold isValidMessageType, and_then, bind.
  cbn [truthy typeof TypeTag_eqb js_in_type js_get].
  unfold own_has, includes. rewrite Ht.
  apply mem_In in Hin. now rewrite Hin.
Qed.

Lemma convertMessage_rejects_validTypes (ps : Props) (t : jsstring) :
  own_get (str "type") ps = Some (JStr t) ->
  In t validTypes ->
  convertMessage (JObj ps) = Returned (Failure not_valid_format).
Proof.
  intros Ht Hin. unfold convertMessage, bind. cbn [js_in_type js_get].
  unfold own_has. rewrite Ht. cbn [negb ToPropertyKey js_ToString].
  cbn [validTypes In] in Hin.
  destruct Hin as [<-|[<-|[<-|[]]]]; reflexivity.
Qed.

(** X9.  No value passes both checks: what [isValidMessageType] accepts,
    [convertMessage] rejects. *)
Theorem dispatched_messages_fail_convertMessage (m : JSValue) :
  isValidMessageType m = Returned true ->
  convertMessage m = Returned (Failure not_valid_format).
Proof.
  intros H. apply isValidMessageType_true_inv in H.
  destruct H as (ps & t & -> & Ht & Hin).
  exact (convertMessage_rejects_validTypes ps t Ht Hin).
Qed.

(** X9 at the object [{"type":"connect"}]. *)
Lemma dispatched_messages_fail_convertMessage_witness :
  isValidMessageType connect_message = Returned true
  /\ convertMessage connect_message = Returned (Failure not_valid_format).
Proof.
  split; [reflexivity|].
  apply dispatched_messages_fail_convertMessage. reflexivity.
Defined.

(** ** Whitespace after a message *)

Lemma is_ws_cases (c : N) :
  is_ws c = true -> c = 0x20 \/ c = 0x09 \/ c = 0x0A \/ c = 0x0D.
Proof.
  unfold is_ws. rewrite !orb_true_iff, !N.eqb_eq. tauto.
Qed.

Lemma complete_literal_ok (v : JSValue) (stack : list Frame) :
  literal_ok (complete v stack).
Proof. destruct stack as [|[d|ps k] st]; exact I. Qed.

Lemma step_after_literal_ok (st st' : PState) (c : N) :
  step_after st c = Some st' -> literal_ok st'.
Proof.
  destruct st as [mode stack]. unfold step_after.
  destruct mode; try discriminate;
    repeat match goal with
           | |- context [if ?b then _ else _] => destruct b
           end;
    intros H; inversion H; subst; try exact I; apply complete_literal_ok.
Qed.

Lemma start_value_literal_ok (st' : PState) (c : N) (stack : list Frame) :
  start_value c stack = Some st' -> literal_ok st'.
Proof.
  unfold start_value.
  repeat match goal with
         | |- context [if ?b then _ else _] => destruct b
         end;
    intros H; inversion H; subst; try exact I; reflexivity.
Qed.

Lemma step_literal_ok (st st' : PState) (c : N) :
  literal_ok st -> step st c = Some st' -> literal_ok st'.
Proof.
  destruct st as [mode stack]. intros Hok.
  destruct mode; cbn [step];
    try (apply step_after_literal_ok);
    repeat match goal with
           | |- context [if ?b then _ else _] => destruct b
           | |- context [match step_str ?l ?c with _ => _ end] =>
               destruct (step_str l c) as [[?|?]|]
           | |- context [match step_num ?n ?c with _ => _ end] =>
               destruct (step_num n c)
           | |- context [match ?r with [] => _ | _ :: _ => _ end] =>
               destruct r
           end;
    try discriminate;
    try (apply start_value_literal_ok);
    try (apply step_after_literal_ok);
    intros H; inversion H; subst; try exact I;
    try apply complete_literal_ok.
  all: unfold literal_ok in *; cbn [fst forallb] in *;
    apply andb_true_iff in Hok; apply Hok.
Qed.

Lemma run_parser_literal_ok (s : jsstring) :
  forall st st', literal_ok st -> run_parser st s = Some st' -> literal_ok st'.
Proof.
  induction s as [|c s IH]; intros st st' Hok; cbn [run_parser].
  - intros H. now injection H as <-.
  - destruct (step st c) as [st1|] eqn:E; [|discriminate].
    apply IH. exact (step_literal_ok st st1 c Hok E).
Qed.

Lemma step_str_closes_on_quote (l : StrLex) (c : N) (s : jsstring) :
  step_str l c = Some (inr s) -> c = QUOTE.
Proof.
  destruct l as [acc|acc|acc k v]; cbn [step_str].
  - destruct (N.eqb_spec c QUOTE); [trivial|].
    repeat match goal with
           | |- context [if ?b then _ else _] => destruct b
           end; discriminate.
  - destruct (escape_char c); [discriminate|].
    destruct (c =? ch "u"); discriminate.
  - destruct (hex_val c); [|discriminate].
    destruct k as [|[|[|[|k]]]]; discriminate.
Qed.

Lemma step_num_stops_at_ws (n : NumLex) (c : N) :
  is_ws c = true -> step_num n c = None.
Proof.
  intros Hc. apply is_ws_cases in Hc.
  destruct n as [ph neg m sc eneg ex].
  destruct Hc as [-> | [-> | [-> | ->]]]; destruct ph; reflexivity.
Qed.

(** In a state a parse can reach, one more whitespace code unit changes
    nothing to how the text ends. *)
Lemma ws_then_finish (st : PState) (c : N) :
  literal_ok st -> is_ws c = true ->
  match step st c with
  | Some st' => finish st'
  | None => None
  end = finish st.
Proof.
  intros Hok Hc. destruct st as [mode stack].
  destruct mode; cbn [step step_after finish]; rewrite ?Hc; try reflexivity.
  - destruct (step_str l c) as [[l'|k]|] eqn:E; try reflexivity.
  - destruct (step_str l c) as [[l'|k]|] eqn:E; try reflexivity.
    apply step_str_closes_on_quote in E. subst c. discriminate Hc.
  - destruct rest as [|x r]; [reflexivity|].
    unfold literal_ok in Hok. cbn [fst forallb] in Hok.
    apply andb_true_iff in Hok. destruct Hok as [Hx _].
    destruct (N.eqb_spec c x) as [->|]; [|reflexivity].
    rewrite Hc in Hx. discriminate Hx.
  - rewrite (step_num_stops_at_ws n c Hc).
    destruct (num_accepting n); [|destruct stack; reflexivity].
    destruct stack as [|[d|ps k] stack]; cbn [complete step_after finish];
      rewrite Hc; reflexivity.
Qed.

Lemma JSON_parse_ws_tail (text : jsstring) (c : N) :
  is_ws c = true -> JSON_parse (text ++ [c]) = JSON_parse text.
Proof.
  intros Hc. unfold JSON_parse. rewrite run_parser_app.
  destruct (run_parser (MValue, []) text) as [st|] eqn:E; [|reflexivity].
  cbn [run_parser].
  assert (Hok : literal_ok st).
  { apply (run_parser_literal_ok text (MValue, [])); [exact I | exact E]. }
  pose proof (ws_then_finish st c Hok Hc) as H.
  destruct (step st c) as [st'|]; rewrite <- H; reflexivity.
Qed.

Lemma utf8_step_lower (st : Utf8State) (b : N) :
  0x80 <= u_lower (snd (utf8_step st b)).
Proof.
  unfold utf8_step, utf8_lead.
  destruct (u_needed st) as [|[|n]];
    repeat match goal with
           | |- context [if ?c then _ else _] => destruct c
           end; cbn [snd u_lower utf8_init]; lia.
Qed.

Lemma utf8_run_ascii_tail (bs : list byte) (b : byte) :
  Byte.to_N b < 0x80 ->
  forall st, 0x80 <= u_lower st ->
    utf8_run st (bs ++ [b]) = utf8_run st bs ++ [Byte.to_N b].
Proof.
  intros Hb. induction bs as [|a bs IH]; intros st Hst; cbn [app utf8_run].
  - unfold utf8_step, utf8_lead.
    destruct (u_needed st) as [|n].
    + rewrite (proj2 (N.leb_le _ _)) by lia. reflexivity.
    + destruct (N.leb_spec (u_lower st) (Byte.to_N b)); [lia|].
      cbn [andb]. rewrite (proj2 (N.leb_le _ _)) by lia. reflexivity.
  - pose proof (utf8_step_lower st (Byte.to_N a)) as Hl.
    destruct (utf8_step st (Byte.to_N a)) as [out st'].
    cbn [snd] in Hl. rewrite (IH st' Hl). apply app_assoc.
Qed.

(** X1.  A frame's closing newline, like any JSON whitespace byte after
    the message, does not change what [parseMessage] returns. *)
Theorem parseMessage_ignores_trailing_whitespace (bs : list byte) (b : byte) :
  is_ws (Byte.to_N b) = true ->
  parseMessage (bs ++ [b]) = parseMessage bs.
Proof.
  intros Hb.
  assert (Hlt : Byte.to_N b < 0x80).
  { apply is_ws_cases in Hb. lia. }
  unfold parseMessage, TextDecoder_decode.
  rewrite (utf8_run_ascii_tail bs b Hlt utf8_init) by (cbn; lia).
  assert (Hs : strip_bom (utf8_run utf8_init bs ++ [Byte.to_N b])
               = strip_bom (utf8_run utf8_init bs) ++ [Byte.to_N b]).
  { destruct (utf8_run utf8_init bs) as [|c s]; cbn [app strip_bom].
    - destruct (N.eqb_spec (Byte.to_N b) 0xFEFF); [lia | reflexivity].
    - destruct (c =? 0xFEFF); reflexivity. }
  rewrite Hs, (JSON_parse_ws_tail _ _ Hb). reflexivity.
Qed.

(** X1 at the [hello] frame and its closing newline. *)
Lemma parseMessage_ignores_trailing_whitespace_witness :
  is_ws (Byte.to_N x0a) = true
  /\ parseMessage hello_frame
     = parseMessage (wire "{'type':'hello','version':'0.10.0','agent':'test'}").
Proof.
  split; [reflexivity|].
  apply (parseMessage_ignores_trailing_whitespace _ x0a). reflexivity.
Defined.

(** ** Blank input *)

Lemma utf8_run_ascii (bs : list byte) :
  Forall (fun b => Byte.to_N b < 0x80) bs ->
  utf8_run utf8_init bs = map Byte.to_N bs.
Proof.
  induction 1 as [|b bs Hb _ IH]; [reflexivity|].
  cbn [utf8_run map]. unfold utf8_step. cbn [u_needed utf8_init].
  unfold utf8_lead. rewrite (proj2 (N.leb_le _ _)) by lia.
  cbn [app]. now rewrite IH.
Qed.

Lemma run_parser_blank (s : jsstring) :
  Forall (fun c => is_ws c = true) s ->
  run_parser (MValue, []) s = Some (MValue, []).
Proof.
  induction 1 as [|c s Hc _ IH]; [reflexivity|].
  cbn [run_parser step]. rewrite Hc. exact IH.
Qed.

(** X2.  An empty read, or one that holds nothing but JSON whitespace (a
    blank line, say), is no message: [parseMessage] fails on it. *)
Theorem parseMessage_blank_fails (bs : list byte) :
  Forall (fun b => is_ws (Byte.to_N b) = true) bs ->
  parseMessage bs
  = Returned (Failure (str "Message object is not valid JSON")).
Proof.
  intros Hws.
  assert (Hascii : Forall (fun b => Byte.to_N b < 0x80) bs).
  { eapply Forall_impl; [|exact Hws]. cbv beta. intros b Hb.
    unfold is_ws in Hb. rewrite !orb_true_iff, !N.eqb_eq in Hb. lia. }
  assert (Hblank : Forall (fun c => is_ws c = true) (map Byte.to_N bs)).
  { apply Forall_map. exact Hws. }
  unfold parseMessage, TextDecoder_decode. rewrite (utf8_run_ascii bs Hascii).
  assert (Hs : strip_bom (map Byte.to_N bs) = map Byte.to_N bs).
  { destruct Hblank as [|c s Hc _]; [reflexivity|]. cbn [strip_bom].
    destruct (N.eqb_spec c 0xFEFF) as [->|]; [discriminate Hc | reflexivity]. }
  rewrite Hs. unfold JSON_parse. rewrite (run_parser_blank _ Hblank).
  reflexivity.
Qed.

(** X2 at a read that holds a single newline. *)
Lemma parseMessage_blank_fails_witness :
  parseMessage [x0a]
  = Returned (Failure (str "Message object is not valid JSON")).
Proof.
  apply parseMessage_blank_fails. repeat constructor.
Defined.

(** ** More on the read loop *)

Lemma parseMessage_failure_description (bs : list byte) (e : jsstring) :
  parseMessage bs = Returned (Failure e) ->
  e = str "Message object is not valid JSON".
Proof.
  unfold parseMessage, try_catch, bind.
  destruct (JSON_parse (TextDecoder_decode bs)); intros H;
    [discriminate H | now injection H].
Qed.

Lemma reply_cases (bs : list byte) :
  Forall (fun r => r = not_json_reply \/ r = invalid_type_reply) (reply bs).
Proof.
  unfold reply.
  destruct (parseMessage bs) as [[m|e]|] eqn:Hp; [| |constructor].
  - destruct (js_ToString m) as [k|]; [|constructor].
    destruct (isValidMessageType m) as [[|]|]; constructor; [|constructor].
    right. vm_compute. reflexivity.
  - apply parseMessage_failure_description in Hp. subst e.
    constructor; [|constructor]. left. vm_compute. reflexivity.
Qed.

Lemma iteration_replies (c0 : Conn) (w : World) :
  replies_follow_inputs c0 w -> replies_follow_inputs c0 (snd (iteration w)).
Proof.
  intros (Hok & Hw).
  turn w.
  all: unfold replies_follow_inputs.
  all: rewrite ?Hok; simpl_world.
  all: try (split; [first [assumption | reflexivity] | assumption]).
  all: destruct (subarray_after_read bs (buffer w)) as (Hs & _ & _);
    rewrite Hs in *.
  all: rewrite ?parse_inputs_app; cbn [parse_inputs];
    rewrite ?app_nil_r, ?flat_map_app; cbn [flat_map]; unfold reply at 2;
    rewrite Hparse;
    repeat match goal with
           | H : js_ToString _ = _ |- _ => rewrite H; clear H
           | H : isValidMessageType _ = _ |- _ => rewrite H; clear H
           end;
    rewrite ?app_nil_r.
  all: split; [first [assumption | reflexivity]|].
  all: rewrite Hw, <- ?app_assoc; reflexivity.
Qed.

Lemma reply_or_dispatched (bs : list byte) :
  (reply bs = [] \/ dispatched bs = [])
  /\ (List.length (reply bs) <= 1)%nat
  /\ (List.length (dispatched bs) <= 1)%nat.
Proof.
  unfold reply, dispatched.
  destruct (parseMessage bs) as [[m|e]|]; [| cbn; auto | cbn; auto].
  destruct (js_ToString m); [| cbn; auto].
  destruct (isValidMessageType m) as [[|]|]; cbn; auto.
Qed.

(** X10.  To a peer that takes writes the loop writes, in order, the
    replies of its parser inputs, and it dispatches, in order, the
    messages of its parser inputs.  Each reply is one of two fixed
    messages.  Of every byte slice there is at most one reply and at most
    one dispatched message, and never both: a parser input that is
    answered is not dispatched, and one that is dispatched is not
    answered. *)
Theorem replies_are_determined_by_inputs (c : Conn) (fuel : nat) :
  write_ok c = true ->
  let w := snd (handleConnection fuel (accept c)) in
  written (conn w) = written c ++ flat_map reply (parse_inputs (trace w))
  /\ handled (trace w) = flat_map dispatched (parse_inputs (trace w))
  /\ Forall (fun r => r = not_json_reply \/ r = invalid_type_reply)
            (flat_map reply (parse_inputs (trace w)))
  /\ (forall bs,
        (reply bs = [] \/ dispatched bs = [])
        /\ (List.length (reply bs) <= 1)%nat
        /\ (List.length (dispatched bs) <= 1)%nat)
  /\ (List.length (flat_map reply (parse_inputs (trace w)))
        + List.length (handled (trace w))
      <= List.length (parse_inputs (trace w)))%nat.
Proof.
  intros Hok w.
  assert (H : replies_follow_inputs c w).
  { subst w. rewrite handleConnection_is_loop.
    apply loop_preserves; [exact (iteration_replies c)|].
    split; [exact Hok|]. cbn. now rewrite app_nil_r. }
  assert (Hd : handled (trace w) = flat_map dispatched (parse_inputs (trace w))).
  { subst w. rewrite handleConnection_is_loop.
    apply (loop_preserves (no_handshake_state c));
      [exact (iteration_no_handshake_state c)|].
    split; [reflexivity | split; [reflexivity|]].
    exists []. cbn [map]. now rewrite app_nil_r. }
  destruct H as (_ & Hw). split; [exact Hw|]. split; [exact Hd|]. split; [|split].
  - apply Forall_flat_map. apply Forall_forall. intros bs _. apply reply_cases.
  - exact reply_or_dispatched.
  - rewrite Hd. generalize (parse_inputs (trace w)) as l.
    induction l as [|bs l IH]; [simpl; lia|].
    cbn [flat_map]. rewrite !length_app. cbn [List.length].
    destruct (reply_or_dispatched bs) as ([Hr | Hr] & H1 & H2);
      rewrite Hr in *; cbn [List.length] in *; lia.
Qed.

(** X10 at a connection that delivers one [getpeers] frame. *)
Lemma replies_are_determined_by_inputs_witness :
  let c := peer [Data getpeers_frame] in
  let w := snd (handleConnection 2 (accept c)) in
  write_ok c = true
  /\ written (conn w) = written c ++ flat_map reply (parse_inputs (trace w)).
Proof.
  cbv zeta. split; [reflexivity|].
  apply (replies_are_determined_by_inputs (peer [Data getpeers_frame]) 2).
  reflexivity.
Defined.

(** A turn reads, parses and dispatches the same way whatever happens to
    the writes. *)
Lemma iteration_same_input (w1 w2 : World) :
  same_input w1 w2 ->
  fst (iteration w1) = fst (iteration w2)
  /\ same_input (snd (iteration w1)) (snd (iteration w2)).
Proof.
  destruct w1 as [[i1 ok1 wr1 cl1] b1 t1], w2 as [[i2 ok2 wr2 cl2] b2 t2].
  unfold same_input. cbn [conn incoming buffer trace].
  intros (-> & -> & ->).
  unfold iteration, try_catchM, bindM, conn_read, record, lift, ret.
  simpl_world.
  destruct i2 as [|[bs|] rest]; simpl_world; [auto | | auto].
  match goal with
  | |- context [parseMessage ?i] =>
      destruct (parseMessage_returns i) as [r Hr]; rewrite Hr
  end.
  destruct r as [m|e]; rewrite ?sendError_cases; simpl_world.
  - destruct (js_ToString m); simpl_world; [|auto].
    destruct (isValidMessageType_returns m) as [b Hb]; rewrite Hb.
    destruct b; cbn [negb]; rewrite ?sendError_cases; simpl_world; [auto|].
    destruct ok1, ok2; simpl_world; auto.
  - destruct ok1, ok2; simpl_world; auto.
Qed.

Lemma loop_same_input (fuel : nat) (w1 w2 : World) :
  same_input w1 w2 ->
  fst (loop fuel w1) = fst (loop fuel w2)
  /\ same_input (snd (loop fuel w1)) (snd (loop fuel w2)).
Proof.
  revert w1 w2; induction fuel as [|fuel IH]; intros w1 w2 H.
  - split; [reflexivity | exact H].
  - cbn [loop]. unfold bindM.
    destruct (iteration_same_input w1 w2 H) as (Hf & Hs).
    destruct (iteration_returns w1) as [f1 H1].
    destruct (iteration w1) as [c1 w1'], (iteration w2) as [c2 w2'].
    cbn [fst snd] in *. subst c1. subst c2.
    destruct f1; [apply IH; exact Hs | split; [reflexivity | exact Hs]].
Qed.

Lemma iteration_muted (c0 : Conn) (w : World) :
  write_ok (conn w) = false /\ written (conn w) = written c0 ->
  write_ok (conn (snd (iteration w))) = false
  /\ written (conn (snd (iteration w))) = written c0.
Proof.
  intros (Hok & Hw). turn w; rewrite ?Hok; simpl_world; auto.
Qed.

(** X11.  A peer that takes no writes is served like one that does: the
    loop reads, parses and dispatches the same and ends the same way;
    nothing is written and the connection is not closed. *)
Theorem failed_writes_do_not_stop_the_loop (c : Conn) (fuel : nat) :
  let quiet := handleConnection fuel (accept (with_write_ok false c)) in
  let heard := handleConnection fuel (accept (with_write_ok true c)) in
  fst quiet = fst heard
  /\ trace (snd quiet) = trace (snd heard)
  /\ incoming (conn (snd quiet)) = incoming (conn (snd heard))
  /\ written (conn (snd quiet)) = written c
  /\ closed (conn (snd quiet)) = closed c.
Proof.
  cbv zeta. rewrite !handleConnection_is_loop.
  match goal with
  | |- fst (loop _ ?a) = fst (loop _ ?b) /\ _ =>
      destruct (loop_same_input fuel a b) as (Hf & Hi & _ & Ht);
      [repeat split|]
  end.
  split; [exact Hf|]. split; [exact Ht|]. split; [exact Hi|].
  split.
  - apply (loop_preserves
             (fun w => write_ok (conn w) = false
                       /\ written (conn w) = written c));
      [exact (iteration_muted c) | split; reflexivity].
  - apply (loop_preserves (no_handshake_state (with_write_ok false c)));
      [exact (iteration_no_handshake_state _)|].
    split; [reflexivity | split; [reflexivity|]].
    exists []. cbn [map]. now rewrite app_nil_r.
Qed.



(** X13: [handleConnection_exits] at a connection that delivers one
    [hello] frame. *)
Lemma handleConnection_exits_witness :
  fst (handleConnection 2 (accept (peer [Data hello_frame]))) = Returned true.
Proof.
  apply handleConnection_exits. vm_compute. lia.
Defined.

(** X14: [long_message_is_cut] at a delivery of 1025 bytes. *)
Lemma long_message_is_cut_witness :
  parse_inputs
    (trace (snd (handleConnection 1 (accept (peer [Data (repeat x20 1025)])))))
  = [firstn 1024 (repeat x20 1025)].
Proof.
  apply long_message_is_cut. rewrite repeat_length. lia.
Defined.

(** ** What the loop dispatches *)

Lemma dispatched_valid (bs : list byte) :
  Forall (fun m => isValidMessageType m = Returned true) (dispatched bs).
Proof.
  unfold dispatched.
  destruct (parseMessage bs) as [[m|e]|]; try constructor.
  destruct (js_ToString m); try constructor.
  destruct (isValidMessageType m) as [[|]|] eqn:E; constructor;
    [exact E | constructor].
Qed.

(** X15.  Whatever the peer sends, the messages that reach the dispatch
    point are objects whose [type] is [connect], [disconnect] or
    [message], each of which [convertMessage] rejects. *)
Theorem only_placeholder_types_are_dispatched (c : Conn) (fuel : nat) :
  Forall (fun m =>
            (exists ps t, m = JObj ps
                          /\ own_get (str "type") ps = Some (JStr t)
                          /\ In t validTypes)
            /\ convertMessage m = Returned (Failure not_valid_format))
         (handled (trace (snd (handleConnection fuel (accept c))))).
Proof.
  assert (Hd : handled (trace (snd (handleConnection fuel (accept c))))
               = flat_map dispatched
                   (parse_inputs
                      (trace (snd (handleConnection fuel (accept c)))))).
  { rewrite handleConnection_is_loop.
    apply (loop_preserves (no_handshake_state c));
      [exact (iteration_no_handshake_state c)|].
    split; [reflexivity | split; [reflexivity|]].
    exists []. cbn [map]. now rewrite app_nil_r. }
  rewrite Hd. apply Forall_flat_map. apply Forall_forall. intros bs _.
  eapply Forall_impl; [|exact (dispatched_valid bs)]. cbv beta.
  intros m Hm. split.
  - now apply isValidMessageType_true_inv.
  - apply isValidMessageType_true_inv in Hm.
    destruct Hm as (ps & t & -> & Ht & Hin).
    exact (convertMessage_rejects_validTypes ps t Ht Hin).
Qed.

(** ** UTF-8 there and back *)

Ltac Zify.zify_post_hook ::= Z.to_euclidean_division_equations.

Lemma to_N_byte_of_N (n : N) : n < 256 -> Byte.to_N (byte_of_N n) = n.
Proof.
  intros Hn. unfold byte_of_N.
  destruct (Byte.of_N n) as [b|] eqn:E.
  - now apply Byte.to_of_N.
  - apply Byte.of_N_None_iff in E. lia.
Qed.

Lemma land_shiftl_small (a b : N) : b < 64 -> N.land (N.shiftl a 6) b = 0.
Proof.
  intros Hb. apply N.bits_inj. intros n.
  rewrite N.land_spec, N.bits_0.
  destruct (N.lt_ge_cases n 6) as [Hn|Hn].
  - rewrite N.shiftl_spec_low by exact Hn. reflexivity.
  - destruct (N.eq_dec b 0) as [->|Hb0].
    + rewrite N.bits_0. apply andb_false_r.
    + rewrite (N.bits_above_log2 b n); [apply andb_false_r|].
      apply N.lt_le_trans with 6; [|exact Hn].
      apply N.log2_lt_pow2; [lia | exact Hb].
Qed.

Lemma lor_shiftl_6 (a b : N) : b < 64 -> N.lor (N.shiftl a 6) b = a * 64 + b.
Proof.
  intros Hb. pose proof (land_shiftl_small a b Hb) as H0.
  rewrite <- N.lxor_lor by exact H0.
  rewrite <- N.add_nocarry_lxor by exact H0.
  rewrite N.shiftl_mul_pow2. reflexivity.
Qed.

Lemma land_mod (x : N) :
  N.land x 0x3F = x mod 64 /\ N.land x 0x1F = x mod 32
  /\ N.land x 0xF = x mod 16 /\ N.land x 0x7 = x mod 8
  /\ N.land x 0x3FF = x mod 1024.
Proof.
  change 0x3F with (N.ones 6). change 0x1F with (N.ones 5).
  change 0xF with (N.ones 4). change 0x7 with (N.ones 3).
  change 0x3FF with (N.ones 10).
  rewrite !N.land_ones. repeat split.
Qed.

Lemma shiftr_div (x : N) :
  N.shiftr x 6 = x / 64 /\ N.shiftr x 12 = x / 4096
  /\ N.shiftr x 18 = x / 262144 /\ N.shiftr x 10 = x / 1024.
Proof. rewrite !N.shiftr_div_pow2. repeat split. Qed.

Ltac bits_to_arith :=
  repeat match goal with
         | |- context [N.land ?x 0x3F] => rewrite (proj1 (land_mod x))
         | |- context [N.land ?x 0x1F] =>
             rewrite (proj1 (proj2 (land_mod x)))
         | |- context [N.land ?x 0xF] =>
             rewrite (proj1 (proj2 (proj2 (land_mod x))))
         | |- context [N.land ?x 0x7] =>
             rewrite (proj1 (proj2 (proj2 (proj2 (land_mod x)))))
         | |- context [N.land ?x 0x3FF] =>
             rewrite (proj2 (proj2 (proj2 (proj2 (land_mod x)))))
         | |- context [N.shiftr ?x 6] => rewrite (proj1 (shiftr_div x))
         | |- context [N.shiftr ?x 12] =>
             rewrite (proj1 (proj2 (shiftr_div x)))
         | |- context [N.shiftr ?x 18] =>
             rewrite (proj1 (proj2 (proj2 (shiftr_div x))))
         | |- context [N.shiftr ?x 10] =>
             rewrite (proj2 (proj2 (proj2 (shiftr_div x))))
         | |- context [N.lor (N.shiftl ?a 6) (?b mod 64)] =>
             rewrite (lor_shiftl_6 a (b mod 64)) by (apply N.mod_lt; lia)
         end.

Ltac decide_tests :=
  repeat match goal with
         | |- context [?a <=? ?b] => destruct (N.leb_spec a b); try lia
         | |- context [?a <? ?b] => destruct (N.ltb_spec a b); try lia
         | |- context [?a =? ?b] => destruct (N.eqb_spec a b); try lia
         end;
  cbn [andb orb].

Lemma utf8_run_1 (cp : N) (rest : list byte) :
  cp < 0x80 ->
  utf8_run utf8_init (utf8_of_cp cp ++ rest)
  = utf16_of_cp cp ++ utf8_run utf8_init rest.
Proof.
  intros H. unfold utf8_of_cp, utf16_of_cp. decide_tests.
  cbn [map app utf8_run]. rewrite to_N_byte_of_N by lia.
  unfold utf8_step. cbn [u_needed utf8_init]. unfold utf8_lead.
  decide_tests. reflexivity.
Qed.

Lemma utf8_run_2 (cp : N) (rest : list byte) :
  0x80 <= cp < 0x800 ->
  utf8_run utf8_init (utf8_of_cp cp ++ rest)
  = utf16_of_cp cp ++ utf8_run utf8_init rest.
Proof.
  intros H. unfold utf8_of_cp. decide_tests. bits_to_arith.
  cbn [map app utf8_run]. rewrite !to_N_byte_of_N by lia.
  unfold utf8_step at 1. cbn [u_needed utf8_init]. unfold utf8_lead.
  bits_to_arith. decide_tests.
  unfold utf8_step. cbn [u_needed u_lower u_upper u_cp].
  bits_to_arith. decide_tests.
  cbn [app]. f_equal. f_equal. lia.
Qed.

Lemma utf8_run_3 (cp : N) (rest : list byte) :
  0x800 <= cp < 0x10000 -> ~ (0xD800 <= cp <= 0xDFFF) ->
  utf8_run utf8_init (utf8_of_cp cp ++ rest)
  = utf16_of_cp cp ++ utf8_run utf8_init rest.
Proof.
  intros H Hs. unfold utf8_of_cp. decide_tests. bits_to_arith.
  cbn [map app utf8_run]. rewrite !to_N_byte_of_N by lia.
  unfold utf8_step at 1. cbn [u_needed utf8_init]. unfold utf8_lead.
  bits_to_arith. decide_tests.
  all: unfold utf8_step at 1; cbn [u_needed u_lower u_upper u_cp];
    bits_to_arith; decide_tests.
  all: unfold utf8_step; cbn [u_needed u_lower u_upper u_cp];
    bits_to_arith; decide_tests.
  all: cbn [app]; f_equal; f_equal; lia.
Qed.

Lemma utf8_run_4 (cp : N) (rest : list byte) :
  0x10000 <= cp < 0x110000 ->
  utf8_run utf8_init (utf8_of_cp cp ++ rest)
  = utf16_of_cp cp ++ utf8_run utf8_init rest.
Proof.
  intros H. unfold utf8_of_cp. decide_tests. bits_to_arith.
  cbn [map app utf8_run]. rewrite !to_N_byte_of_N by lia.
  unfold utf8_step at 1. cbn [u_needed utf8_init]. unfold utf8_lead.
  bits_to_arith. decide_tests.
  all: unfold utf8_step at 1; cbn [u_needed u_lower u_upper u_cp];
    bits_to_arith; decide_tests.
  all: unfold utf8_step at 1; cbn [u_needed u_lower u_upper u_cp];
    bits_to_arith; decide_tests.
  all: unfold utf8_step; cbn [u_needed u_lower u_upper u_cp];
    bits_to_arith; decide_tests.
  all: cbn [app]; f_equal; f_equal; lia.
Qed.

Lemma utf16_of_pair (c d : N) :
  0xD800 <= c <= 0xDBFF -> 0xDC00 <= d <= 0xDFFF ->
  utf16_of_cp (0x10000 + (c - 0xD800) * 0x400 + (d - 0xDC00)) = [c; d].
Proof.
  intros Hc Hd. unfold utf16_of_cp. decide_tests. cbv zeta.
  bits_to_arith. f_equal; [lia|]. f_equal. lia.
Qed.

Lemma utf8_run_unit (c : N) (rest : list byte) :
  c < 0x10000 -> is_high_surrogate c = false -> is_low_surrogate c = false ->
  utf8_run utf8_init (utf8_of_cp c ++ rest) = c :: utf8_run utf8_init rest.
Proof.
  intros Hc Hh Hl.
  assert (Hu : utf16_of_cp c = [c]).
  { unfold utf16_of_cp. decide_tests. reflexivity. }
  change (c :: utf8_run utf8_init rest) with ([c] ++ utf8_run utf8_init rest).
  rewrite <- Hu.
  unfold is_high_surrogate, is_low_surrogate in Hh, Hl.
  apply andb_false_iff in Hh, Hl. rewrite !N.leb_gt in Hh, Hl.
  destruct (N.lt_ge_cases c 0x80); [apply utf8_run_1; assumption|].
  destruct (N.lt_ge_cases c 0x800); [apply utf8_run_2; lia|].
  apply utf8_run_3; lia.
Qed.

Lemma utf8_run_pair (c d : N) (rest : list byte) :
  is_high_surrogate c = true -> is_low_surrogate d = true ->
  utf8_run utf8_init
    (utf8_of_cp (0x10000 + (c - 0xD800) * 0x400 + (d - 0xDC00)) ++ rest)
  = c :: d :: utf8_run utf8_init rest.
Proof.
  unfold is_high_surrogate, is_low_surrogate.
  rewrite !andb_true_iff, !N.leb_le. intros Hc Hd.
  rewrite utf8_run_4 by lia. rewrite utf16_of_pair by lia. reflexivity.
Qed.

(** A well-formed string starts with a surrogate pair or with a code
    unit that is no surrogate. *)
Lemma well_formed_cons (c : N) (s : jsstring) :
  well_formed (c :: s) = true ->
  (exists d s', s = d :: s'
                /\ is_high_surrogate c = true /\ is_low_surrogate d = true
                /\ well_formed s' = true)
  \/ (is_high_surrogate c = false /\ is_low_surrogate c = false
      /\ well_formed s = true).
Proof.
  cbn [well_formed]. destruct (is_high_surrogate c) eqn:Hh.
  - destruct s as [|d s']; [discriminate|].
    rewrite andb_true_iff. intros [Hd Hw]. left. exists d, s'. auto.
  - rewrite andb_true_iff, negb_true_iff. intros [Hl Hw]. right. auto.
Qed.

Lemma decode_encode (s : jsstring) :
  well_formed s = true -> code_units s ->
  forall rest,
    utf8_run utf8_init (TextEncoder_encode s ++ rest)
    = s ++ utf8_run utf8_init rest.
Proof.
  unfold TextEncoder_encode, code_units.
  induction s as [|a|a b l IHl IHbl] using list_ind_pairs;
    intros Hw Hu rest.
  - reflexivity.
  - destruct (well_formed_cons a [] Hw)
      as [(d & s' & H & _)|(Hh & Hl & _)]; [discriminate H|].
    cbn [code_points]. rewrite Hh, Hl. cbn [flat_map].
    rewrite app_nil_r. apply utf8_run_unit; [|assumption|assumption].
    now inversion Hu.
  - destruct (well_formed_cons a (b :: l) Hw)
      as [(d & s' & H & Hh & Hl & Hw')|(Hh & Hl & Hw')].
    + injection H as <- <-. cbn [code_points]. rewrite Hh, Hl.
      cbn [flat_map]. rewrite <- app_assoc, utf8_run_pair by assumption.
      cbn [app]. f_equal. f_equal. apply IHl; [assumption|].
      inversion Hu as [|? ? _ Hu']. now inversion Hu'.
    + change (code_points (a :: b :: l))
        with (if is_high_surrogate a
              then if is_low_surrogate b
                   then (0x10000 + (a - 0xD800) * 0x400 + (b - 0xDC00))
                          :: code_points l
                   else REPLACEMENT :: code_points (b :: l)
              else if is_low_surrogate a
                   then REPLACEMENT :: code_points (b :: l)
                   else a :: code_points (b :: l)).
      rewrite Hh, Hl. cbn [flat_map].
      rewrite <- app_assoc, utf8_run_unit; [| now inversion Hu | assumption ..].
      cbn [app]. f_equal. apply IHbl; [assumption | now inversion Hu].
Qed.

Lemma TextDecoder_decode_encode (s : jsstring) :
  well_formed s = true -> code_units s ->
  TextDecoder_decode (TextEncoder_encode s) = strip_bom s.
Proof.
  intros Hw Hu. unfold TextDecoder_decode.
  rewrite <- (app_nil_r (TextEncoder_encode s)).
  rewrite (decode_encode s Hw Hu []). cbn [utf8_run utf8_init u_needed].
  now rewrite app_nil_r.
Qed.

(** ** What [JSON.stringify] writes is well formed *)

Lemma well_formed_app (a b : jsstring) :
  well_formed a = true -> well_formed b = true -> well_formed (a ++ b) = true.
Proof.
  intros Ha Hb. revert Ha.
  induction a as [|x|x y l IHl IHyl] using list_ind_pairs; intros Ha.
  - exact Hb.
  - destruct (well_formed_cons x [] Ha)
      as [(d & s' & H & _)|(Hh & Hl & _)]; [discriminate H|].
    cbn [app well_formed]. rewrite Hh, Hl. exact Hb.
  - destruct (well_formed_cons x (y :: l) Ha)
      as [(d & s' & H & Hh & Hl & Hw')|(Hh & Hl & Hw')].
    + injection H as <- <-. cbn [app well_formed]. rewrite Hh, Hl.
      apply IHl. exact Hw'.
    + change (well_formed ((x :: y :: l) ++ b))
        with (if is_high_surrogate x
              then match (y :: l) ++ b with
                   | d :: s'' => is_low_surrogate d && well_formed s''
                   | [] => false
                   end
              else negb (is_low_surrogate x) && well_formed ((y :: l) ++ b)).
      rewrite Hh, Hl. apply IHyl. exact Hw'.
Qed.

Lemma hex_digit_ascii (d : N) : d < 16 -> 0x30 <= hex_digit d < 0x80.
Proof.
  intros Hd.
  assert (H : In d [0;1;2;3;4;5;6;7;8;9;10;11;12;13;14;15]) by (simpl; lia).
  simpl in H.
  repeat (destruct H as [<-|H]; [vm_compute; split; congruence|]).
  contradiction.
Qed.

(** The code units [piece] writes: no surrogates, no controls, 16 bits. *)
Lemma piece_units (c : N) :
  c < 0x10000 ->
  Forall (fun u => 0x20 <= u < 0x10000
                   /\ is_high_surrogate u = false
                   /\ is_low_surrogate u = false) (piece c).
Proof.
  intros Hc.
  assert (Hascii : forall u, 0x20 <= u < 0x80 ->
            0x20 <= u < 0x10000
            /\ is_high_surrogate u = false /\ is_low_surrogate u = false).
  { intros u Hu. unfold is_high_surrogate, is_low_surrogate.
    split; [lia|]. split; apply andb_false_iff; left; apply N.leb_gt; lia. }
  assert (Hesc : Forall (fun u => 0x20 <= u < 0x80) (unicode_escape c)).
  { unfold unicode_escape.
    repeat (constructor;
            [ first [ apply conj; vm_compute; congruence
                    | pose proof (hex_digit_ascii ((c / 4096) mod 16)
                                    ltac:(apply N.mod_lt; lia));
                      pose proof (hex_digit_ascii ((c / 256) mod 16)
                                    ltac:(apply N.mod_lt; lia));
                      pose proof (hex_digit_ascii ((c / 16) mod 16)
                                    ltac:(apply N.mod_lt; lia));
                      pose proof (hex_digit_ascii (c mod 16)
                                    ltac:(apply N.mod_lt; lia));
                      lia ] | ]).
    constructor. }
  unfold piece.
  destruct (is_high_surrogate c || is_low_surrogate c) eqn:E.
  - eapply Forall_impl; [|exact Hesc]. exact Hascii.
  - apply orb_false_iff in E. destruct E as [Hh Hl].
    unfold quote_unit.
    repeat match goal with
           | |- context [if ?x =? ?y then _ else _] =>
               destruct (N.eqb_spec x y);
               [repeat constructor; apply Hascii; vm_compute;
                split; congruence|]
           end.
    destruct (N.ltb_spec c 0x20).
    + eapply Forall_impl; [|exact Hesc]. exact Hascii.
    + constructor; [|constructor]. repeat split; [assumption | lia | assumption ..].
Qed.

Lemma surrogate_range_high (c : N) :
  is_high_surrogate c = true -> 0xD800 <= c <= 0xDBFF.
Proof.
  unfold is_high_surrogate. rewrite andb_true_iff, !N.leb_le. trivial.
Qed.

Lemma surrogate_range_low (c : N) :
  is_low_surrogate c = true -> 0xDC00 <= c <= 0xDFFF.
Proof.
  unfold is_low_surrogate. rewrite andb_true_iff, !N.leb_le. trivial.
Qed.

Lemma no_surrogate_well_formed (s : jsstring) :
  Forall (fun u => is_high_surrogate u = false /\ is_low_surrogate u = false) s ->
  well_formed s = true.
Proof.
  induction 1 as [|u s [Hh Hl] _ IH]; [reflexivity|].
  cbn [well_formed]. rewrite Hh, Hl. exact IH.
Qed.

Lemma piece_well_formed (c : N) : c < 0x10000 -> well_formed (piece c) = true.
Proof.
  intros Hc. apply no_surrogate_well_formed.
  eapply Forall_impl; [|exact (piece_units c Hc)].
  intros u (_ & Hh & Hl). auto.
Qed.

Lemma piece_length (c : N) : (List.length (piece c) <= 6)%nat.
Proof.
  unfold piece, quote_unit, unicode_escape.
  repeat match goal with
         | |- context [if ?x then _ else _] => destruct x
         end; simpl; lia.
Qed.

(** What [quote_body] writes is well formed, holds 16-bit code units and
    no control character, whatever it is given. *)
Lemma quote_body_shape (s : jsstring) :
  code_units s ->
  well_formed (quote_body s) = true
  /\ code_units (quote_body s)
  /\ Forall (fun u => 0x20 <= u) (quote_body s)
  /\ (List.length (quote_body s) <= 6 * List.length s)%nat.
Proof.
  unfold code_units.
  induction s as [|a|a b l IHl IHbl] using list_ind_pairs; intros Hu.
  - repeat split; constructor.
  - destruct (quote_body_cons a []) as [(d & s' & H & _)|Hq];
      [discriminate H|rewrite Hq].
    cbn [quote_body]. rewrite app_nil_r.
    assert (Ha : a < 0x10000) by now inversion Hu.
    pose proof (piece_units a Ha) as Hp. pose proof (piece_length a).
    split; [now apply piece_well_formed|].
    split; [|split; [|simpl; lia]];
      (eapply Forall_impl; [|exact Hp]); cbv beta; intros u Hx; lia.
  - assert (Ha : a < 0x10000) by now inversion Hu.
    assert (Hbl : Forall (fun c => c < 0x10000) (b :: l)) by now inversion Hu.
    assert (Hb : b < 0x10000) by now inversion Hbl.
    assert (Hl : Forall (fun c => c < 0x10000) l) by now inversion Hbl.
    destruct (quote_body_cons a (b :: l))
      as [(d & s' & H & Hh & Hd & Hq)|Hq]; rewrite Hq.
    + injection H as <- <-.
      destruct (IHl Hl) as (Hw & Hc & Hn & Hlen).
      split; [cbn [well_formed]; rewrite Hh, Hd; exact Hw|].
      split; [repeat constructor; assumption|].
      split; [|simpl in *; lia].
      apply surrogate_range_high in Hh. apply surrogate_range_low in Hd.
      repeat constructor; try lia. exact Hn.
    + destruct (IHbl Hbl) as (Hw & Hc & Hn & Hlen).
      pose proof (piece_units a Ha) as Hp. pose proof (piece_length a).
      split; [apply well_formed_app; [now apply piece_well_formed | exact Hw]|].
      split; [|split; [|rewrite length_app; simpl in *; lia]];
        (apply Forall_app; split; [|assumption]);
        (eapply Forall_impl; [|exact Hp]); cbv beta; intros u Hx; lia.
Qed.

(** ** [canonicalizeMessage] and [sendError] across the wire *)

(** X4.  The output of [canonicalizeMessage] is made of 16-bit code
    units, never holds an unpaired surrogate or a code unit below U+0020,
    also when its input does, and is at least 2 code units longer than the
    input and at most 6 times as long plus 2. *)
Theorem canonicalizeMessage_output_shape (s : jsstring) :
  code_units s ->
  well_formed (canonicalizeMessage s) = true
  /\ code_units (canonicalizeMessage s)
  /\ Forall (fun u => 0x20 <= u) (canonicalizeMessage s)
  /\ (List.length s + 2 <= List.length (canonicalizeMessage s)
      <= 6 * List.length s + 2)%nat.
Proof.
  intros Hu. destruct (quote_body_shape s Hu) as (Hw & Hc & Hn & Hlen).
  pose proof (quote_body_length s) as Hlow.
  unfold canonicalizeMessage, canonicalize, QuoteJSONString.
  assert (Hq : well_formed [QUOTE] = true) by reflexivity.
  split.
  { change (QUOTE :: quote_body s ++ [QUOTE])
      with ([QUOTE] ++ quote_body s ++ [QUOTE]).
    repeat apply well_formed_app; assumption. }
  split.
  { constructor; [vm_compute; reflexivity|].
    apply Forall_app. split; [exact Hc|].
    constructor; [vm_compute; reflexivity | constructor]. }
  split.
  { constructor; [vm_compute; congruence|].
    apply Forall_app. split; [exact Hn|].
    constructor; [vm_compute; congruence | constructor]. }
  cbn [List.length]. rewrite length_app. cbn [List.length]. lia.
Qed.

(** X4 at the text [{}]. *)
Lemma canonicalizeMessage_output_shape_witness :
  code_units (json "{}") /\ well_formed (canonicalizeMessage (json "{}")) = true.
Proof.
  assert (H : code_units (json "{}")).
  { repeat constructor. }
  split; [exact H|].
  apply (canonicalizeMessage_output_shape (json "{}") H).
Defined.

(** X3.  Encoded as UTF-8 and given to [parseMessage], the output of
    [canonicalizeMessage] is read back as the string it was given. *)
Theorem parseMessage_reads_back_canonicalizeMessage (s : jsstring) :
  code_units s ->
  parseMessage (TextEncoder_encode (canonicalizeMessage s))
  = Returned (Success (JStr s)).
Proof.
  intros Hu. destruct (quote_body_shape s Hu) as (Hw & Hc & _ & _).
  unfold parseMessage.
  assert (Hwf : well_formed (canonicalizeMessage s) = true).
  { unfold canonicalizeMessage, canonicalize, QuoteJSONString.
    change (QUOTE :: quote_body s ++ [QUOTE])
      with ([QUOTE] ++ quote_body s ++ [QUOTE]).
    repeat apply well_formed_app; try assumption; reflexivity. }
  assert (Hcu : code_units (canonicalizeMessage s)).
  { unfold canonicalizeMessage, canonicalize, QuoteJSONString.
    constructor; [vm_compute; reflexivity|].
    apply Forall_app. split; [exact Hc|].
    constructor; [vm_compute; reflexivity | constructor]. }
  rewrite (TextDecoder_decode_encode _ Hwf Hcu).
  unfold canonicalizeMessage, canonicalize.
  change (strip_bom (QuoteJSONString s)) with (QuoteJSONString s).
  rewrite JSON_parse_QuoteJSONString. reflexivity.
Qed.

(** X3 at the text [{}]. *)
Lemma parseMessage_reads_back_canonicalizeMessage_witness :
  code_units (json "{}")
  /\ parseMessage (TextEncoder_encode (canonicalizeMessage (json "{}")))
     = Returned (Success (JStr (json "{}"))).
Proof.
  assert (H : code_units (json "{}")).
  { repeat constructor. }
  split; [exact H|].
  apply (parseMessage_reads_back_canonicalizeMessage (json "{}") H).
Defined.

(** X5.  What [sendError] writes to a peer that takes writes,
    [parseMessage] reads back as an object whose [code] and [message] are
    the two arguments, unchanged. *)
Theorem parseMessage_reads_back_sendError (code message : jsstring) :
  code_units code -> code_units message ->
  exists bytes,
    written (conn (snd (sendError code message (accept (peer [])))))
    = [bytes]
    /\ parseMessage bytes = Returned (Success (error_object code message)).
Proof.
  intros Hc Hm. eexists. split; [rewrite sendError_cases; reflexivity|].
  destruct (quote_body_shape code Hc) as (Hwc & Hcc & _ & _).
  destruct (quote_body_shape message Hm) as (Hwm & Hcm & _ & _).
  unfold parseMessage.
  assert (Hwf : well_formed (error_response code message) = true).
  { rewrite error_response_text.
    repeat apply well_formed_app; try assumption; reflexivity. }
  assert (Hcu : code_units (error_response code message)).
  { rewrite error_response_text. unfold code_units in *.
    repeat (apply Forall_app; split); try assumption;
      repeat constructor. }
  rewrite (TextDecoder_decode_encode _ Hwf Hcu).
  assert (Hb : strip_bom (error_response code message)
               = error_response code message).
  { rewrite error_response_text. reflexivity. }
  rewrite Hb, JSON_parse_error_response. reflexivity.
Qed.

(** X5 at [(INVALID_FORMAT, "Invalid message type")]. *)
Lemma parseMessage_reads_back_sendError_witness :
  exists bytes,
    written (conn (snd (sendError INVALID_FORMAT (str "Invalid message type")
                                  (accept (peer [])))))
    = [bytes]
    /\ parseMessage bytes
       = Returned (Success (error_object INVALID_FORMAT
                                         (str "Invalid message type"))).
Proof.
  apply parseMessage_reads_back_sendError; repeat constructor.
Defined.

(** * Declared fields, arbitrary bytes, and single turns of the read loop *)

(** ** [convertMessage] and the declared fields *)

Lemma own_get_app_other (f k : jsstring) (x : JSValue) (ps : Props) :
  f <> k -> own_get f (ps ++ [(k, x)]) = own_get f ps.
Proof.
  intros Hne. induction ps as [|[k' v'] ps IH]; cbn [app own_get].
  - destruct (jsstring_eqb f k) eqn:E; [|reflexivity].
    apply jsstring_eqb_eq in E. contradiction.
  - destruct (jsstring_eqb f k'); [reflexivity | exact IH].
Qed.

Lemma own_get_has (k : jsstring) (ps : Props) (x : JSValue) :
  own_get k ps = Some x -> own_has k ps = true.
Proof. unfold own_has. now intros ->. Qed.

Lemma is_string_has (k : jsstring) (ps : Props) :
  is_string (own_get k ps) = true -> own_has k ps = true.
Proof.
  intros H. apply is_string_iff in H. destruct H as [s H].
  exact (own_get_has _ _ _ H).
Qed.

Lemma is_string_array_has (k : jsstring) (ps : Props) :
  is_string_array (own_get k ps) = true -> own_has k ps = true.
Proof.
  intros H. apply is_string_array_iff in H. destruct H as (l & H & _).
  exact (own_get_has _ _ _ H).
Qed.

Lemma is_structured_has (k : jsstring) (ps : Props) :
  TypeTag_eqb (typeof (own_get k ps)) TObject && negb (is_null (own_get k ps))
  = true ->
  own_has k ps = true.
Proof.
  intros H. apply is_structured_iff in H.
  destruct H as [[l H]|[q H]]; exact (own_get_has _ _ _ H).
Qed.

(** With the tag of a variant as [type], [convertMessage] is the
    variant's validator. *)
Lemma convertMessage_at_tag (v : Variant) (ps : Props) :
  own_get (str "type") ps = Some (JStr (tag v)) ->
  exists f,
    assoc (tag v) validators = Some f
    /\ convertMessage (JObj ps)
       = Returned (if f (JObj ps) then Success (JObj ps)
                   else Failure not_valid_format).
Proof.
  intros Htype.
  assert (Hf : exists f, assoc (tag v) validators = Some f)
    by (destruct v; eexists; reflexivity).
  destruct Hf as [f Hf]. exists f. split; [exact Hf|].
  unfold convertMessage, bind. cbn [js_in_type js_get].
  rewrite (own_get_has _ _ _ Htype), Htype.
  cbn [negb ToPropertyKey js_ToString]. unfold validators_at. rewrite Hf.
  cbn [call_validator]. destruct (f (JObj ps)); reflexivity.
Qed.

Lemma validator_needs_fields (v : Variant) (ps : Props) (f : JSValue -> bool) :
  assoc (tag v) validators = Some f ->
  f (JObj ps) = true ->
  Forall (fun k => own_has k ps = true) (declared_fields v).
Proof.
  destruct v; intros Hf; injection Hf as <-; cbn [js_get declared_fields];
    rewrite ?andb_true_iff; intros H;
    repeat constructor;
    first [ apply is_string_has; apply H
          | apply is_string_array_has; apply H
          | apply is_structured_has; apply andb_true_iff; exact H ].
Qed.

Lemma validator_ignores_other_fields
      (v : Variant) (ps : Props) (f : JSValue -> bool) (k : jsstring) (x : JSValue) :
  assoc (tag v) validators = Some f ->
  declared_fields v <> [] ->
  ~ In k (declared_fields v) ->
  f (JObj (ps ++ [(k, x)])) = f (JObj ps).
Proof.
  destruct v; intros Hf Hne Hk; injection Hf as <-;
    try (exfalso; apply Hne; reflexivity);
    cbn [js_get declared_fields In] in *;
    rewrite !own_get_app_other by (intros E; apply Hk; auto);
    reflexivity.
Qed.

(** C5, as amended.  For an object whose [type] is the tag of one of the
    11 variants, [convertMessage] returns a [Result] and succeeds only if
    every field the variant declares is present: a missing declared field
    makes validation fail.  An extraneous field makes it fail only for
    [getpeers], [getmempool] and [getchaintip], which are accepted exactly
    when they have the [type] key and no other; for the other variants a
    further field leaves acceptance and rejection as they were. *)
Theorem convertMessage_requires_declared_fields (v : Variant) (ps : Props) :
  own_get (str "type") ps = Some (JStr (tag v)) ->
  (convertMessage (JObj ps) = Returned (Success (JObj ps))
   \/ convertMessage (JObj ps) = Returned (Failure not_valid_format))
  /\ (convertMessage (JObj ps) = Returned (Success (JObj ps)) ->
      Forall (fun f => own_has f ps = true) (declared_fields v))
  /\ (forall f, In f (declared_fields v) -> own_get f ps = None ->
      convertMessage (JObj ps) = Returned (Failure not_valid_format))
  /\ (declared_fields v = [] ->
      (convertMessage (JObj ps) = Returned (Success (JObj ps))
       <-> only_type ps))
  /\ (declared_fields v <> [] ->
      forall k x,
        ~ In k (str "type" :: declared_fields v) ->
        own_get k ps = None ->
        (convertMessage (JObj ps) = Returned (Success (JObj ps))
         <-> convertMessage (JObj (ps ++ [(k, x)]))
             = Returned (Success (JObj (ps ++ [(k, x)]))))).
Proof.
  intros Htype.
  destruct (convertMessage_at_tag v ps Htype) as (f & Hf & Hcm).
  assert (Hneed : convertMessage (JObj ps) = Returned (Success (JObj ps)) ->
                  Forall (fun k => own_has k ps = true) (declared_fields v)).
  { rewrite Hcm. destruct (f (JObj ps)) eqn:E; [|discriminate].
    intros _. exact (validator_needs_fields v ps f Hf E). }
  split; [rewrite Hcm; destruct (f (JObj ps)); auto|].
  split; [exact Hneed|]. split; [|split].
  - intros k Hin Hnone. rewrite Hcm.
    destruct (f (JObj ps)) eqn:E; [|reflexivity].
    pose proof (validator_needs_fields v ps f Hf E) as Hall.
    rewrite Forall_forall in Hall. specialize (Hall k Hin).
    unfold own_has in Hall. rewrite Hnone in Hall. discriminate Hall.
  - intros Hnil. rewrite Hcm.
    assert (Hlen : f (JObj ps)
                   = Nat.eqb (List.length (Object_keys ps)) 1).
    { destruct v; try discriminate Hnil; injection Hf as <-; reflexivity. }
    rewrite Hlen, <- (only_type_iff ps (own_get_has _ _ _ Htype)).
    destruct (Nat.eqb (List.length (Object_keys ps)) 1); split;
      try discriminate; reflexivity.
  - intros Hne k x Hk Hfresh.
    assert (Htype' : own_get (str "type") (ps ++ [(k, x)])
                     = Some (JStr (tag v))).
    { rewrite own_get_app_other; [exact Htype|].
      intros E. apply Hk. left. exact E. }
    destruct (convertMessage_at_tag v _ Htype') as (f' & Hf' & Hcm').
    rewrite Hf in Hf'. injection Hf' as <-.
    rewrite Hcm, Hcm'.
    rewrite (validator_ignores_other_fields v ps f k x Hf Hne)
      by (intros Hin; apply Hk; right; exact Hin).
    destruct (f (JObj ps)); split; try discriminate; reflexivity.
Qed.

(** The theorem at the object [{"type":"getpeers"}]. *)
Lemma convertMessage_requires_declared_fields_witness :
  let ps := [(str "type", JStr (str "getpeers"))] in
  own_get (str "type") ps = Some (JStr (tag GetPeers))
  /\ (convertMessage (JObj ps) = Returned (Success (JObj ps))
      <-> only_type ps).
Proof.
  cbv zeta. split; [reflexivity|].
  apply (convertMessage_requires_declared_fields GetPeers); reflexivity.
Defined.

(** ** [parseMessage] on arbitrary bytes *)

Lemma utf16_of_cp_string_units (cp : N) :
  0x80 <= cp -> Forall string_unit (utf16_of_cp cp).
Proof.
  intros H. unfold utf16_of_cp, string_unit. decide_tests; cbv zeta;
    repeat constructor; lia.
Qed.

Lemma utf8_lead_string_units (b : N) :
  string_unit b ->
  Forall string_unit (fst (utf8_lead b)) /\ decoder_ok (snd (utf8_lead b)).
Proof.
  intros Hb. unfold utf8_lead, decoder_ok, REPLACEMENT.
  bits_to_arith. decide_tests;
    cbn [fst snd u_needed u_lower u_upper u_cp utf8_init].
  all: split; [|lia].
  all: repeat first [apply Forall_nil | apply Forall_cons];
    first [exact Hb | unfold string_unit; lia].
Qed.

Lemma utf8_step_string_units (st : Utf8State) (b : N) :
  decoder_ok st -> string_unit b ->
  Forall string_unit (fst (utf8_step st b)) /\ decoder_ok (snd (utf8_step st b)).
Proof.
  intros (Hlo & Hup & Hcp) Hb. unfold utf8_step.
  destruct (u_needed st) as [|n]; [now apply utf8_lead_string_units|].
  destruct (N.leb_spec (u_lower st) b) as [H1|H1]; cbn [andb].
  2:{ destruct (utf8_lead_string_units b Hb) as [Hf Hd].
      destruct (utf8_lead b) as [out st']. cbn [fst snd] in *.
      split; [|exact Hd]. constructor; [unfold string_unit, REPLACEMENT; lia|].
      exact Hf. }
  destruct (N.leb_spec b (u_upper st)) as [H2|H2].
  2:{ destruct (utf8_lead_string_units b Hb) as [Hf Hd].
      destruct (utf8_lead b) as [out st']. cbn [fst snd] in *.
      split; [|exact Hd]. constructor; [unfold string_unit, REPLACEMENT; lia|].
      exact Hf. }
  bits_to_arith.
  destruct n as [|[|[|n]]]; cbn [fst snd].
  - split; [|unfold decoder_ok; cbn; lia].
    apply utf16_of_cp_string_units. lia.
  - split; [constructor|]. unfold decoder_ok.
    cbn [u_needed u_lower u_upper u_cp]. lia.
  - split; [constructor|]. unfold decoder_ok.
    cbn [u_needed u_lower u_upper u_cp]. lia.
  - split; [constructor|]. unfold decoder_ok.
    cbn [u_needed u_lower u_upper u_cp]. lia.
Qed.

Lemma utf8_run_string_units (bs : list byte) :
  Forall (fun b => string_unit (Byte.to_N b)) bs ->
  forall st, decoder_ok st -> Forall string_unit (utf8_run st bs).
Proof.
  induction 1 as [|b bs Hb _ IH]; intros st Hst; cbn [utf8_run].
  - destruct (u_needed st); constructor;
      [unfold string_unit, REPLACEMENT; lia | constructor].
  - destruct (utf8_step_string_units st (Byte.to_N b) Hst Hb) as [Hf Hd].
    destruct (utf8_step st (Byte.to_N b)) as [out st']. cbn [fst snd] in *.
    apply Forall_app. split; [exact Hf | now apply IH].
Qed.

Lemma run_string_units (s : jsstring) :
  Forall string_unit s ->
  forall acc stack,
    run_parser (MStr (SChars acc), stack) s
    = Some (MStr (SChars (rev s ++ acc)), stack).
Proof.
  induction 1 as [|c s (H1 & H2 & H3) _ IH]; intros acc stack.
  - reflexivity.
  - cbn [run_parser]. rewrite step_raw by assumption.
    rewrite IH. cbn [rev]. now rewrite <- app_assoc.
Qed.

Lemma utf8_run_ascii_head (a : byte) (rest : list byte) :
  Byte.to_N a < 0x80 ->
  utf8_run utf8_init (a :: rest) = Byte.to_N a :: utf8_run utf8_init rest.
Proof.
  intros Ha. cbn [utf8_run]. unfold utf8_step. cbn [u_needed utf8_init].
  unfold utf8_lead. rewrite (proj2 (N.leb_le _ _)) by lia. reflexivity.
Qed.

(** Bytes between the quotes of a string need not be UTF-8: whatever they
    are, short of controls, quote and backslash, the text parses. *)
Lemma parseMessage_any_bytes_in_string (body : list byte) :
  Forall (fun b => string_unit (Byte.to_N b)) body ->
  parseMessage ([x5b; x22] ++ body ++ [x22; x5d])
  = Returned (Success (JArr [JStr (utf8_run utf8_init body)])).
Proof.
  intros Hbody.
  assert (Hinit : decoder_ok utf8_init).
  { unfold decoder_ok. cbn [utf8_init u_lower u_upper u_needed]. lia. }
  pose proof (utf8_run_string_units body Hbody utf8_init Hinit) as Hunits.
  unfold parseMessage, TextDecoder_decode. cbn [app].
  rewrite !utf8_run_ascii_head by (vm_compute; reflexivity).
  change (body ++ [x22; x5d]) with (body ++ [x22] ++ [x5d]).
  rewrite app_assoc.
  rewrite (utf8_run_ascii_tail (body ++ [x22]) x5d)
    by first [vm_compute; reflexivity | vm_compute; discriminate].
  rewrite (utf8_run_ascii_tail body x22)
    by first [vm_compute; reflexivity | vm_compute; discriminate].
  cbn [strip_bom]. change (Byte.to_N x5b =? 0xFEFF) with false. cbv iota.
  unfold JSON_parse. cbn [run_parser].
  change (step (MValue, []) (Byte.to_N x5b)) with (Some (MArrStart, @nil Frame)).
  cbv iota beta.
  change (step (MArrStart, []) (Byte.to_N x22))
    with (Some (MStr (SChars []), [FArr []])).
  cbv iota beta. rewrite <- app_assoc, run_parser_app.
  rewrite (run_string_units _ Hunits). rewrite app_nil_r.
  set (s := utf8_run utf8_init body).
  change (run_parser (MStr (SChars (rev s)), [FArr []])
            ([Byte.to_N x22] ++ [Byte.to_N x5d]))
    with (Some (MDone (JArr [JStr (rev (rev s))]), @nil Frame)).
  cbn [finish]. rewrite rev_involutive. reflexivity.
Qed.

Lemma parseMessage_success_iff (bs : list byte) (v : JSValue) :
  parseMessage bs = Returned (Success v)
  <-> JSON_parse (TextDecoder_decode bs) = Returned v.
Proof.
  unfold parseMessage, try_catch, bind.
  destruct (JSON_parse (TextDecoder_decode bs)) as [v0|]; split; intros H;
    try discriminate H; injection H as ->; reflexivity.
Qed.

Lemma parseMessage_failure_iff (bs : list byte) :
  parseMessage bs = Returned (Failure not_valid_json)
  <-> JSON_parse (TextDecoder_decode bs) = Threw.
Proof.
  unfold parseMessage, try_catch, bind.
  destruct (JSON_parse (TextDecoder_decode bs)) as [v0|]; split; intros H;
    try discriminate H; reflexivity.
Qed.

Lemma never_valid_byte_is_replaced (b : byte) :
  0xF5 <= Byte.to_N b -> utf8_run utf8_init [b] = [REPLACEMENT].
Proof.
  intros H.
  destruct b;
    first [ vm_compute; reflexivity
          | exfalso; vm_compute in H; apply H; reflexivity ].
Qed.

(** C7, as amended.  For every byte slice [parseMessage] returns a
    [Result] and never raises.  It fails, and then always with the
    description "Message object is not valid JSON", whenever the text
    decoded from the bytes is not one JSON value; that is the case for
    text that goes on, after a complete value, with anything but
    whitespace.  A success carries the value that the decoded text
    denotes, and a decoded text that denotes an object or an array gives
    a success.  Bytes that are not valid UTF-8 are no failure: they are
    decoded to U+FFFD, so a string literal may hold any bytes from 0x20
    on other than the quote and the backslash, and a byte from 0xF5 on,
    which no UTF-8 text contains, is read as U+FFFD. *)
Theorem parseMessage_never_raises (bs : list byte) :
  (exists r, parseMessage bs = Returned r)
  /\ (JSON_parse (TextDecoder_decode bs) = Threw ->
      parseMessage bs = Returned (Failure not_valid_json))
  /\ (forall e, parseMessage bs = Returned (Failure e) -> e = not_valid_json)
  /\ (forall text rest c v stack,
        TextDecoder_decode bs = text ++ c :: rest ->
        run_parser (MValue, []) text = Some (MDone v, stack) ->
        is_ws c = false ->
        parseMessage bs = Returned (Failure not_valid_json))
  /\ (forall v, parseMessage bs = Returned (Success v) ->
                JSON_parse (TextDecoder_decode bs) = Returned v)
  /\ (forall v, JSON_parse (TextDecoder_decode bs) = Returned v ->
                structured v ->
                parseMessage bs = Returned (Success v))
  /\ (Forall (fun b => string_unit (Byte.to_N b)) bs ->
      parseMessage ([x5b; x22] ++ bs ++ [x22; x5d])
      = Returned (Success (JArr [JStr (utf8_run utf8_init bs)])))
  /\ (forall b, 0xF5 <= Byte.to_N b ->
        parseMessage ([x5b; x22] ++ [b] ++ [x22; x5d])
        = Returned (Success (JArr [JStr [REPLACEMENT]]))).
Proof.
  split; [apply parseMessage_returns|].
  split; [apply parseMessage_failure_iff|].
  split; [exact (parseMessage_failure_description bs)|].
  split.
  { intros text rest c v stack Htext Hrun Hc.
    apply parseMessage_failure_iff. rewrite Htext.
    exact (JSON_parse_trailing_garbage text rest c v stack Hrun Hc). }
  split; [intros v; apply parseMessage_success_iff|].
  split; [intros v Hv _; apply parseMessage_success_iff, Hv|].
  split; [apply parseMessage_any_bytes_in_string|].
  intros b Hb.
  rewrite <- (never_valid_byte_is_replaced b Hb).
  apply parseMessage_any_bytes_in_string.
  constructor; [|constructor].
  unfold string_unit. lia.
Qed.

(** ** One turn of the read loop on its own *)






(** ** The reads and the parser inputs *)

Lemma cut_fuel (f1 : nat) :
  forall (f2 : nat) (bs : list byte),
    (List.length bs <= f1)%nat -> (List.length bs <= f2)%nat ->
    cut f1 bs = cut f2 bs.
Proof.
  induction f1 as [|f1 IH]; intros f2 bs H1 H2.
  - destruct bs; [|simpl in H1; lia].
    destruct f2; reflexivity.
  - destruct f2 as [|f2].
    + destruct bs; [|simpl in H2; lia]. reflexivity.
    + cbn [cut]. f_equal.
      destruct (skipn 1024 bs) as [|b remaining] eqn:Hs; [reflexivity|].
      assert (Hl : List.length (skipn 1024 bs) = S (List.length remaining))
        by (rewrite Hs; reflexivity).
      rewrite length_skipn in Hl.
      apply IH; cbn [List.length]; lia.
Qed.

Lemma cut_unfold (bs : list byte) :
  cut (List.length bs) bs
  = firstn 1024 bs ::
    match skipn 1024 bs with
    | [] => []
    | remaining => cut (List.length remaining) remaining
    end.
Proof.
  destruct (skipn 1024 bs) as [|b remaining] eqn:Hs.
  - destruct (List.length bs); cbn [cut]; rewrite ?Hs; reflexivity.
  - assert (Hl : List.length (skipn 1024 bs) = S (List.length remaining))
      by (rewrite Hs; reflexivity).
    rewrite length_skipn in Hl.
    destruct (List.length bs) as [|n] eqn:Hn; [lia|].
    cbn [cut]. rewrite Hs. f_equal.
    apply cut_fuel; cbn [List.length]; lia.
Qed.

Lemma cut_short (bs : list byte) :
  (List.length bs <= 1024)%nat -> cut (List.length bs) bs = [bs].
Proof.
  intros H. rewrite cut_unfold.
  rewrite firstn_all2 by exact H. rewrite skipn_all2 by exact H. reflexivity.
Qed.

Lemma concat_cut (fuel : nat) :
  forall bs, (List.length bs <= fuel)%nat -> List.concat (cut fuel bs) = bs.
Proof.
  induction fuel as [|fuel IH]; intros bs H.
  - destruct bs; [reflexivity | simpl in H; lia].
  - cbn [cut List.concat].
    destruct (skipn 1024 bs) as [|b remaining] eqn:Hs.
    + cbn [List.concat]. rewrite app_nil_r.
      rewrite <- (firstn_skipn 1024 bs) at 2. rewrite Hs, app_nil_r. reflexivity.
    + assert (Hl : List.length (skipn 1024 bs) = S (List.length remaining))
        by (rewrite Hs; reflexivity).
      rewrite length_skipn in Hl.
      rewrite IH by (cbn [List.length]; lia).
      rewrite <- Hs. apply firstn_skipn.
Qed.

Lemma concat_deliveries (script : list ReadEvent) :
  List.concat (deliveries script) = pending script.
Proof.
  induction script as [|[bs|] rest IH]; cbn [deliveries pending];
    [reflexivity | | exact IH].
  rewrite concat_app, IH, concat_cut by lia. reflexivity.
Qed.

Lemma read_into_buffer (bs : list byte) (n : nat) :
  firstn (Nat.min (List.length bs) n) bs = firstn n bs
  /\ skipn (Nat.min (List.length bs) n) bs = skipn n bs.
Proof.
  destruct (Nat.le_gt_cases (List.length bs) n) as [H|H].
  - rewrite Nat.min_l by exact H.
    rewrite firstn_all, skipn_all, firstn_all2, skipn_all2 by exact H.
    split; reflexivity.
  - rewrite Nat.min_r by lia. split; reflexivity.
Qed.

Lemma iteration_reads_in_order (c0 : Conn) (w : World) :
  reads_in_order c0 w -> reads_in_order c0 (snd (iteration w)).
Proof.
  unfold reads_in_order. intros (Hlen & H).
  turn w.
  all: try match goal with
    | |- context [if ?c then _ else _] => destruct c; simpl_world
    end.
  all: try match goal with Heq : incoming _ = _ |- _ => rewrite ?Heq in * end;
    cbn [deliveries] in *.
  all: try (split; assumption).
  all: destruct (subarray_after_read bs (buffer w)) as (Hs & Hl & _);
    cbv zeta in Hs, Hl; rewrite ?Hs, Hl; (split; [exact Hlen|]).
  all: rewrite <- H, Hlen; destruct (read_into_buffer bs 1024) as (-> & ->).
  all: rewrite ?parse_inputs_app; cbn [parse_inputs];
    rewrite ?app_nil_r, <- ?app_assoc; f_equal.
  all: rewrite (cut_unfold bs); cbn [app]; f_equal.
  all: destruct (skipn 1024 bs); reflexivity.
Qed.

Lemma turn_parses_what_it_reads (w0 : World) (bs : list byte)
      (rest : list ReadEvent) :
  incoming (conn w0) = Data bs :: rest ->
  parse_inputs (trace (snd (iteration w0)))
  = parse_inputs (trace w0)
    ++ [firstn (Nat.min (List.length bs) (List.length (buffer w0))) bs].
Proof.
  intros Hin. turn w0.
  all: try match goal with Heq : incoming _ = _ |- _ => rewrite ?Heq in Hin end;
    try discriminate Hin.
  all: injection Hin as <- <-.
  all: try match goal with
    | |- context [if ?c then _ else _] => destruct c; simpl_world
    end.
  all: destruct (subarray_after_read bs0 (buffer w0)) as (Hs & _ & _);
    cbv zeta in Hs; rewrite ?Hs.
  all: rewrite ?parse_inputs_app; cbn [parse_inputs];
    rewrite ?app_nil_r; reflexivity.
Qed.

Lemma turn_keeps_parse_inputs (w0 : World) :
  exists more,
    parse_inputs (trace (snd (iteration w0))) = parse_inputs (trace w0) ++ more.
Proof.
  destruct (incoming (conn w0)) as [|[bs|] rest] eqn:Hin.
  - exists []. turn w0; try discriminate. now rewrite app_nil_r.
  - eexists. exact (turn_parses_what_it_reads w0 bs rest Hin).
  - exists []. turn w0; try discriminate. now rewrite app_nil_r.
Qed.

Lemma loop_keeps_parse_inputs (fuel : nat) :
  forall w0, exists more,
    parse_inputs (trace (snd (loop fuel w0))) = parse_inputs (trace w0) ++ more.
Proof.
  induction fuel as [|fuel IH]; intros w0.
  - exists []. cbn. now rewrite app_nil_r.
  - destruct (turn_keeps_parse_inputs w0) as [m1 H1].
    cbn [loop]. unfold bindM.
    destruct (iteration_returns w0) as [f Hf].
    destruct (iteration w0) as [r w1]. simpl in Hf, H1. subst r.
    destruct f.
    + destruct (IH w1) as [m2 H2]. exists (m1 ++ m2).
      rewrite H2, H1, app_assoc. reflexivity.
    + exists m1. exact H1.
Qed.

Lemma first_read_is_first_input (fuel : nat) (w0 : World) (bs : list byte)
      (rest : list ReadEvent) :
  incoming (conn w0) = Data bs :: rest ->
  exists more,
    parse_inputs (trace (snd (loop (S fuel) w0)))
    = parse_inputs (trace w0)
      ++ firstn (Nat.min (List.length bs) (List.length (buffer w0))) bs :: more.
Proof.
  intros Hin.
  pose proof (turn_parses_what_it_reads w0 bs rest Hin) as H1.
  cbn [loop]. unfold bindM.
  destruct (iteration_returns w0) as [f Hf].
  destruct (iteration w0) as [r w1]. simpl in Hf, H1. subst r.
  destruct f.
  - destruct (loop_keeps_parse_inputs fuel w1) as [m2 H2]. exists m2.
    rewrite H2, H1, <- app_assoc. reflexivity.
  - exists []. exact H1.
Qed.

(** C9, as amended.  The read loop does not frame by newline.  Its
    parser inputs are, in order, what the reads deliver: the bytes of a
    read of at most 1024 bytes are one parser input, whatever they hold and
    however they end, and more bytes than that are cut by the buffer at
    every 1024 bytes.  A turn that reads bytes gives just those bytes to
    the parser in the same turn, so the first bytes to arrive are parsed in
    the first turn.  No byte is kept back: at every point of a run the
    parser inputs so far, joined, followed by the bytes not yet read, are
    the whole incoming stream. *)
Theorem read_loop_holds_nothing_back (c : Conn) (fuel : nat) :
  let w := snd (handleConnection fuel (accept c)) in
  parse_inputs (trace w) ++ deliveries (incoming (conn w))
  = deliveries (incoming c)
  /\ (forall bs rest, (List.length bs <= 1024)%nat ->
        deliveries (Data bs :: rest) = bs :: deliveries rest)
  /\ (forall bs rest, (1024 < List.length bs)%nat ->
        deliveries (Data bs :: rest)
        = firstn 1024 bs :: deliveries (Data (skipn 1024 bs) :: rest))
  /\ (forall w0 bs rest,
        incoming (conn w0) = Data bs :: rest ->
        parse_inputs (trace (snd (iteration w0)))
        = parse_inputs (trace w0)
          ++ [firstn (Nat.min (List.length bs) (List.length (buffer w0))) bs])
  /\ (forall bs rest,
        incoming c = Data bs :: rest -> (List.length bs <= 1024)%nat ->
        (0 < fuel)%nat ->
        exists more, parse_inputs (trace w) = bs :: more)
  /\ List.concat (parse_inputs (trace w)) ++ pending (incoming (conn w))
     = pending (incoming c).
Proof.
  intros w.
  assert (H : reads_in_order c w).
  { subst w. rewrite handleConnection_is_loop.
    apply loop_preserves; [exact (iteration_reads_in_order c)|].
    split; [apply repeat_length | reflexivity]. }
  destruct H as (_ & Horder).
  split; [exact Horder|].
  split.
  { intros bs rest Hlen. cbn [deliveries]. rewrite cut_short by exact Hlen.
    reflexivity. }
  split.
  { intros bs rest Hlen. cbn [deliveries]. rewrite (cut_unfold bs).
    destruct (skipn 1024 bs) as [|b remaining] eqn:Hs.
    - assert (Hl : List.length (skipn 1024 bs) = 0%nat) by (rewrite Hs; reflexivity).
      rewrite length_skipn in Hl. lia.
    - reflexivity. }
  split; [exact turn_parses_what_it_reads|].
  split.
  { intros bs rest Hin Hlen Hfuel. subst w. rewrite handleConnection_is_loop.
    destruct fuel as [|fuel]; [lia|].
    destruct (first_read_is_first_input fuel
                (mkWorld (conn (accept c)) (repeat x00 1024) (trace (accept c)))
                bs rest Hin) as [more Hmore].
    exists more. rewrite Hmore. cbn [accept trace parse_inputs app buffer].
    rewrite repeat_length, Nat.min_l by exact Hlen.
    rewrite firstn_all. reflexivity. }
  rewrite <- !concat_deliveries, <- Horder, concat_app. reflexivity.
Qed.
